(** * Charge-curve estimation of smartcharge.dev: a shallow embedding

    The development follows [DBInterface.getChargeCurve],
    [DBInterface.setChargeCurve] and [DBInterface.chargeCalibration] of the
    core server's data handler.  The three methods talk to PostgreSQL
    through SQL text; the tables are modelled as lists of rows and every
    SQL statement as a function over those lists.

    Numbers: integer columns are [Z]; the results of [percentile_cont] and
    [AVG] are exact rationals ([Qc]), which is what the SQL aggregates
    denote when rounding is left aside.  A result of [percentile_cont]
    ([double precision]) reaches JavaScript as a number, a result of [AVG]
    ([numeric]) as the text of its number. *)

From Stdlib Require Import ZArith QArith Qcanon Qround Lia.
From stdpp Require Import gmap strings list sorting.

Local Open Scope Z_scope.

(** ** JavaScript values handed back by the driver *)

(** A cell of a result row as the driver hands it to JavaScript.  The
    driver is created by [pgp(DB_OPTIONS)] with [DB_OPTIONS = {}] and no
    type parser is installed, so the conversion is the default one: SQL
    [NULL] is [null], a [double precision] cell (the result of
    [percentile_cont]) is parsed into a number, and a [numeric] cell (the
    result of [AVG] over integers or over [numeric] operands) is left as
    the text the server sent, a non-empty decimal string.  [JText q] is
    the string that spells the value [q]. *)
Inductive jsval : Type :=
  | JNull
  | JNum (q : Qc)
  | JText (q : Qc).

Definition Zq (z : Z) : Qc := Q2Qc (inject_Z z).

(** [Boolean(v)]: [null] and the number [0] are falsy, every other number
    is truthy, and so is every non-empty string, whatever it spells
    (["0"] and ["0.00000000000000000000"] included). *)
Definition truthy (v : jsval) : bool :=
  match v with
  | JNull => false
  | JNum q => negb (Qnum (this q) =? 0)
  | JText _ => true
  end.

(** [a || b] *)
Definition js_or (a b : jsval) : jsval := if truthy a then a else b.

(** [v !== undefined && v !== null] *)
Definition not_nullish (v : jsval) : bool :=
  match v with
  | JNull => false
  | JNum _ => true
  | JText _ => true
  end.

Definition jsval_eqb (a b : jsval) : bool :=
  match a, b with
  | JNull, JNull => true
  | JNum p, JNum q => Qeq_bool p q
  | JText p, JText q => Qeq_bool p q
  | _, _ => false
  end.

(** ** Outcome of an awaited promise *)

Inductive error : Type :=
  | AssertionError        (* [assert(...)] failed *)
  | CardinalityViolation. (* a scalar subquery produced more than one row *)

Inductive outcome (A : Type) : Type :=
  | Resolved (a : A)
  | Rejected (e : error).
Arguments Resolved {A} a.
Arguments Rejected {A} e.

(** ** Tables *)

(** Modelled from the spec: the declarations of the tables [charge] and
    [charge_curve] (module [./db-schema]) are not among the sources.  The
    columns are those the SQL text of the three methods names; the numeric
    columns are integers (the API passes a level and a duration as [Int]);
    the optional columns of [charge_curve] are nullable and have no
    default; the unique key of [charge_curve] is the conflict target of the
    upsert. *)
Record DBCharge : Type := {
  charge_id : Z;
  vehicle_uuid : string;
  location_uuid : string;
  target_level : Z;
  end_level : Z;
  estimate : Z
}.

Record DBChargeCurve : Type := {
  cc_vehicle_uuid : string;
  cc_charge_id : Z;
  level : Z;
  duration : Z;
  outside_deci_temperature : option Z;
  energy_used : option Z;
  energy_added : option Z
}.

Record DB : Type := {
  charge : list DBCharge;
  charge_curve : list DBChargeCurve
}.

(** ** SQL building blocks *)

(** [charge a JOIN charge_curve b ON (a.charge_id = b.charge_id)] *)
Definition join_charge_curve (db : DB) : list (DBCharge * DBChargeCurve) :=
  a ← charge db;
  b ← filter (λ b, charge_id a = cc_charge_id b) (charge_curve db);
  [(a, b)].

(** [... WHERE a.vehicle_uuid = $1 AND a.location_uuid = $2] *)
Definition samples_at (db : DB) (v loc : string) : list DBChargeCurve :=
  snd <$> filter (λ ab, vehicle_uuid ab.1 = v ∧ location_uuid ab.1 = loc)
                 (join_charge_curve db).

(** Ascending insertion sort, used for [ORDER BY]. *)
Fixpoint insert_asc (x : Z) (l : list Z) : list Z :=
  match l with
  | [] => [x]
  | y :: l' => if x <=? y then x :: l else y :: insert_asc x l'
  end.

Definition sort_asc (l : list Z) : list Z := foldr insert_asc [] l.

(** The groups of [GROUP BY level ORDER BY level]: every level that occurs,
    once, in ascending order. *)
Fixpoint insert_group (x : Z) (l : list Z) : list Z :=
  match l with
  | [] => [x]
  | y :: l' =>
      if x <? y then x :: l
      else if x =? y then l
      else y :: insert_group x l'
  end.

Definition group_levels (l : list Z) : list Z := foldr insert_group [] l.

(** [percentile_cont(p) WITHIN GROUP (ORDER BY x)] of PostgreSQL: with the
    [n] values in ascending order and numbered from 0, the value at the
    position [p * (n - 1)], interpolated linearly between the two
    neighbouring rows; [NULL] over no rows. *)
Definition percentile_cont (p : Q) (xs : list Z) : jsval :=
  let s := sort_asc xs in
  match s with
  | [] => JNull
  | _ :: _ =>
      let rn := (p * inject_Z (Z.of_nat (length s) - 1))%Q in
      let lo := nth (Z.to_nat (Qfloor rn)) s 0 in
      let hi := nth (Z.to_nat (Qceiling rn)) s 0 in
      JNum (Q2Qc (inject_Z lo
                  + (rn - inject_Z (Qfloor rn)) * inject_Z (hi - lo))%Q)
  end.

(** The arithmetic mean of a non-empty list. *)
Definition mean (xs : list Q) : Qc :=
  Q2Qc (foldr Qplus 0%Q xs / inject_Z (Z.of_nat (length xs)))%Q.

(** [AVG(x)]: [NULL] over no rows, the arithmetic mean otherwise.  Both
    uses below average integers ([duration]) or [numeric] values
    ([60.0 * estimate / ...]), so the result is of type [numeric] and
    reaches JavaScript as text, also when the mean is 0. *)
Definition sql_avg (xs : list Q) : jsval :=
  match xs with
  | [] => JNull
  | _ :: _ => JText (mean xs)
  end.

(** [MAX(x)]: [NULL] over no rows. *)
Definition sql_max (xs : list Z) : option Z :=
  match xs with
  | [] => None
  | x :: xs' => Some (foldr Z.max x xs')
  end.

(** ** The three queries of [getChargeCurve] *)

Record CurveRow : Type := { row_level : Z; seconds : jsval }.

(** [SELECT level, percentile_cont(0.5) WITHIN GROUP(ORDER BY duration) AS seconds
     FROM charge a JOIN charge_curve b ON(a.charge_id = b.charge_id)
     WHERE a.vehicle_uuid = $1 AND a.location_uuid = $2
     GROUP BY level ORDER BY level] *)
Definition durations_at (rows : list DBChargeCurve) (lv : Z) : list Z :=
  duration <$> filter (λ b, level b = lv) rows.

Definition level_median (rows : list DBChargeCurve) (lv : Z) : CurveRow :=
  {| row_level := lv;
     seconds := percentile_cont (1 # 2) (durations_at rows lv) |}.

Definition select_level_median (db : DB) (v loc : string) : list CurveRow :=
  let rows := samples_at db v loc in
  level_median rows <$> group_levels (level <$> rows).

(** [SELECT AVG(duration) FROM charge a JOIN charge_curve b
     ON (a.charge_id = b.charge_id)
     WHERE a.vehicle_uuid = $1 AND location_uuid = $2] *)
Definition select_avg_duration (db : DB) (v loc : string) : jsval :=
  sql_avg ((λ b, inject_Z (duration b)) <$> samples_at db v loc).

(** [SELECT AVG(60.0 * estimate / (target_level-end_level)) FROM charge
     WHERE end_level < target_level AND vehicle_uuid = $1
     AND location_uuid = $2] *)
Definition short_sessions (db : DB) (v loc : string) : list DBCharge :=
  filter (λ a, end_level a < target_level a
               ∧ vehicle_uuid a = v ∧ location_uuid a = loc)
         (charge db).

Definition seconds_per_level (a : DBCharge) : Q :=
  (60 * inject_Z (estimate a) / inject_Z (target_level a - end_level a))%Q.

Definition select_avg_estimate (db : DB) (v loc : string) : jsval :=
  sql_avg (seconds_per_level <$> short_sessions db v loc).

(** ** [getChargeCurve] *)

(** [interface ChargeCurve { [level: number]: number }]; the annotation
    converts nothing at run time, the values of a curve are the cells as
    the driver handed them over. *)
Abbreviation ChargeCurve := (gmap Z jsval).

(** [while (dbCurve.length > 0 && level >= dbCurve[0].level)
       current = dbCurve.shift()!.seconds;] *)
Fixpoint shift_while (lv : Z) (current : jsval) (dbCurve : list CurveRow)
  : jsval * list CurveRow :=
  match dbCurve with
  | [] => (current, [])
  | r :: rest =>
      if row_level r <=? lv then shift_while lv (seconds r) rest
      else (current, dbCurve)
  end.

(** One turn of the [for] loop: the state is [current], the pending rows
    and the curve built so far. *)
Definition curve_step (st : jsval * list CurveRow * ChargeCurve) (lv : Z)
  : jsval * list CurveRow * ChargeCurve :=
  let '(current, dbCurve, curve) := st in
  let '(current', dbCurve') := shift_while lv current dbCurve in
  (current', dbCurve', <[lv := current']> curve).

(** [for (let level = 0; level <= 100; ++level) { ... }] *)
Definition fill_curve (current : jsval) (dbCurve : list CurveRow)
  : ChargeCurve :=
  (foldl curve_step (current, dbCurve, ∅) (seqZ 0 101)).2.

(** The body of [getChargeCurve] once the driver has answered: [dbCurve] is
    the answer of the first query, [avgDuration] and [avgEstimate] the
    [.avg] cells of the two fallback queries. *)
Definition chargeCurveFrom (dbCurve : list CurveRow)
    (avgDuration avgEstimate : jsval) : outcome ChargeCurve :=
  let '(current, pending) :=
    match dbCurve with
    | r :: rest => (seconds r, rest)
    | [] => (js_or (js_or avgDuration avgEstimate) (JNum (Zq (20 * 60))), [])
    end in
  if not_nullish current then Resolved (fill_curve current pending)
  else Rejected AssertionError.

Definition getChargeCurve (db : DB) (vehicle location : string)
  : outcome ChargeCurve :=
  chargeCurveFrom (select_level_median db vehicle location)
                  (select_avg_duration db vehicle location)
                  (select_avg_estimate db vehicle location).

(** The three statements are awaited one after the other on the pool,
    outside any transaction, so each reads the tables as they are when it
    runs: [db1] when the per-level query runs, [db2] at the first fallback
    query and [db3] at the second.  [getChargeCurve db] is the call during
    which the tables stay as they are. *)
Definition getChargeCurve_between (db1 db2 db3 : DB)
    (vehicle location : string) : outcome ChargeCurve :=
  chargeCurveFrom (select_level_median db1 vehicle location)
                  (select_avg_duration db2 vehicle location)
                  (select_avg_estimate db3 vehicle location).

(** ** [setChargeCurve] *)

(** [ON CONFLICT(vehicle_uuid,level,charge_id)] *)
Definition curve_key (r : DBChargeCurve) : string * Z * Z :=
  (cc_vehicle_uuid r, level r, cc_charge_id r).

(** [DO UPDATE SET outside_deci_temperature = EXCLUDED.outside_deci_temperature,
      duration = EXCLUDED.duration, energy_used = EXCLUDED.energy_used,
      energy_added = EXCLUDED.energy_added] *)
Definition do_update (old excluded : DBChargeCurve) : DBChargeCurve :=
  {| cc_vehicle_uuid := cc_vehicle_uuid old;
     cc_charge_id := cc_charge_id old;
     level := level old;
     duration := duration excluded;
     outside_deci_temperature := outside_deci_temperature excluded;
     energy_used := energy_used excluded;
     energy_added := energy_added excluded |}.

(** [INSERT INTO charge_curve ... ON CONFLICT ... DO UPDATE ... RETURNING *]:
    the table after the statement and the row it returns. *)
Fixpoint insert_on_conflict (x : DBChargeCurve) (t : list DBChargeCurve)
  : list DBChargeCurve * DBChargeCurve :=
  match t with
  | [] => ([x], x)
  | r :: t' =>
      if decide (curve_key r = curve_key x)
      then (do_update r x :: t', do_update r x)
      else let '(t'', row) := insert_on_conflict x t' in (r :: t'', row)
  end.

(** The object [input]: the three optional properties are set only when the
    argument is not [undefined] ([None]); a column without a property gets
    the column default, [NULL]. *)
Definition make_input (vehicle : string) (charge : Z) (lv dur : Z)
    (temp used added : option Z) : DBChargeCurve :=
  {| cc_vehicle_uuid := vehicle;
     cc_charge_id := charge;
     level := lv;
     duration := dur;
     outside_deci_temperature :=
       match temp with Some t => Some t | None => None end;
     energy_used := match used with Some e => Some e | None => None end;
     energy_added := match added with Some e => Some e | None => None end |}.

Definition setChargeCurve (db : DB) (vehicle : string) (charge_id : Z)
    (lv dur : Z) (temp used added : option Z)
  : outcome (DB * DBChargeCurve) :=
  let input := make_input vehicle charge_id lv dur temp used added in
  let '(t, row) := insert_on_conflict input (charge_curve db) in
  Resolved ({| charge := charge db; charge_curve := t |}, row).

(** ** [chargeCalibration] *)

(** [(SELECT location_uuid FROM charge c WHERE c.charge_id = $2)] used as a
    value: [NULL] over no rows, an error over more than one. *)
Definition session_location (db : DB) (cid : Z) : outcome (option string) :=
  match location_uuid <$> filter (λ c, charge_id c = cid) (charge db) with
  | [] => Resolved None
  | [loc] => Resolved (Some loc)
  | _ :: _ :: _ => Rejected CardinalityViolation
  end.

(** [SELECT MAX(level) as level FROM charge a JOIN charge_curve b
     ON(a.charge_id = b.charge_id)
     WHERE a.vehicle_uuid = $1 AND a.location_uuid = (SELECT ...)];
    a comparison with [NULL] keeps no row. *)
Definition chargeCalibration (db : DB) (vehicle : string) (cid : Z)
  : outcome (option Z) :=
  match session_location db cid with
  | Rejected e => Rejected e
  | Resolved None => Resolved (sql_max [])
  | Resolved (Some loc) =>
      Resolved (sql_max (level <$> samples_at db vehicle loc))
  end.

(** ** Reference definitions, written from the description of the curve *)

(** The value of the step function at [lv]: the duration of the last
    pending row whose level is at most [lv], the seed when there is none. *)
Definition step_value (seed : jsval) (pending : list CurveRow) (lv : Z)
  : jsval :=
  default seed (last (seconds <$> filter (λ r, row_level r ≤ lv) pending)).

(** The textbook median: the middle value of an odd number of sorted
    values, the mean of the two middle values of an even number. *)
Definition median (xs : list Z) : jsval :=
  let s := sort_asc xs in
  match length s with
  | O => JNull
  | S m =>
      let a := nth (Nat.div2 m) s 0 in
      let b := nth (S (Nat.div2 m)) s 0 in
      if Nat.even m then JNum (Zq a)
      else JNum (Q2Qc ((inject_Z a + inject_Z b) / 2)%Q)
  end.

(** The median of the durations sampled at level [lv] for a vehicle at a
    location, and the levels that have a sample there. *)
Definition median_at (db : DB) (v loc : string) (lv : Z) : jsval :=
  median (durations_at (samples_at db v loc) lv).

Definition measured (db : DB) (v loc : string) (lv : Z) : Prop :=
  lv ∈ level <$> samples_at db v loc.

(** The curve that is [seed] at each of the levels 0..100. *)
Definition constant_curve (seed : jsval) (curve : ChargeCurve) : Prop :=
  ∀ lv, curve !! lv = if decide (0 ≤ lv ≤ 100) then Some seed else None.

(** The unique key of [charge_curve] holds in a table. *)
Definition key_unique (t : list DBChargeCurve) : Prop :=
  NoDup (curve_key <$> t).

(** ** Orders, readings of the fallback chain and worked tables *)

(** Rows in the order of [ORDER BY level]. *)
Definition by_level (a b : CurveRow) : Prop := row_level a ≤ row_level b.

(** A sample without temperature and energies, and a session. *)
Definition sample (vehicle : string) (cid lv dur : Z) : DBChargeCurve :=
  {| cc_vehicle_uuid := vehicle; cc_charge_id := cid; level := lv;
     duration := dur; outside_deci_temperature := None;
     energy_used := None; energy_added := None |}.

Definition session (cid : Z) (vehicle location : string)
    (target ended est : Z) : DBCharge :=
  {| charge_id := cid; vehicle_uuid := vehicle; location_uuid := location;
     target_level := target; end_level := ended; estimate := est |}.

(** One session of vehicle V at location L with samples at the levels 0, 5
    and 40. *)
Definition db_one_session : DB :=
  {| charge := [session 1 "V" "L" 90 41 0];
     charge_curve := [sample "V" 1 0 60; sample "V" 1 5 55;
                      sample "V" 1 40 200] |}.

(** The reading of "first non-null wins". *)
Definition first_non_null (avgDuration avgEstimate fixed : jsval) : jsval :=
  match avgDuration with
  | JNull =>
      match avgEstimate with
      | JNull => fixed
      | _ => avgEstimate
      end
  | _ => avgDuration
  end.

(** A session that stopped short of its target with an estimate of 0
    minutes, and no sample. *)
Definition db_zero_estimate : DB :=
  {| charge := [session 1 "V" "L" 90 50 0]; charge_curve := [] |}.

(** A session that stopped 30 levels short of its target with an estimate
    of 30 minutes, and no sample. *)
Definition db_short_session : DB :=
  {| charge := [session 1 "V" "L" 90 60 30]; charge_curve := [] |}.

(** The session of [db_short_session] with two samples of duration 0. *)
Definition db_zero_samples : DB :=
  {| charge := [session 1 "V" "L" 90 60 30];
     charge_curve := [sample "V" 1 10 0; sample "V" 1 20 0] |}.

(** Three sessions of vehicle V at location L, each with one sample at
    level 20. *)
Definition db_outlier : DB :=
  {| charge := [session 1 "V" "L" 90 90 0; session 2 "V" "L" 90 90 0;
                session 3 "V" "L" 90 90 0];
     charge_curve := [sample "V" 1 20 10; sample "V" 2 20 1000;
                      sample "V" 3 20 20] |}.

(** A table whose one sample has a temperature and both energies. *)
Definition db_with_energy : DB :=
  {| charge := [session 1 "V" "L" 90 41 0];
     charge_curve :=
       [ {| cc_vehicle_uuid := "V"; cc_charge_id := 1; level := 20;
            duration := 100; outside_deci_temperature := Some 50;
            energy_used := Some 7; energy_added := Some 9 |} ] |}.

(** Vehicle V charged once at location L (session 1, samples up to level
    40) and once at location M (session 2, a sample at level 80). *)
Definition db_two_locations : DB :=
  {| charge := [session 1 "V" "L" 90 41 0; session 2 "V" "M" 90 81 0];
     charge_curve := [sample "V" 1 0 60; sample "V" 1 5 55;
                      sample "V" 1 40 200; sample "V" 2 80 90] |}.

(** * Further methods of the data handler *)

(** ** [removeVehicle] and [removeLocation] *)

(** Of the statements of [removeVehicle], the two on the tables modelled
    here, in their order:
    [DELETE FROM charge_curve WHERE vehicle_uuid = $1;]
    [DELETE FROM charge WHERE vehicle_uuid = $1;]
    The other statements delete from tables that no modelled query reads. *)
Definition removeVehicle (db : DB) (vehicle : string) : DB :=
  let curve := filter (λ b, cc_vehicle_uuid b ≠ vehicle) (charge_curve db) in
  {| charge := filter (λ a, vehicle_uuid a ≠ vehicle) (charge db);
     charge_curve := curve |}.

(** Of the statements of [removeLocation]:
    [DELETE FROM charge_curve USING charge
     WHERE charge_curve.charge_id = charge.charge_id
     AND charge.location_uuid = $1;]
    [DELETE FROM charge WHERE location_uuid = $1;] *)
Definition removeLocation (db : DB) (location : string) : DB :=
  let curve :=
    filter (λ b, ¬ Exists (λ a, cc_charge_id b = charge_id a
                                ∧ location_uuid a = location) (charge db))
           (charge_curve db) in
  {| charge := filter (λ a, location_uuid a ≠ location) (charge db);
     charge_curve := curve |}.


(** [charge_id] identifies a session. *)
Definition session_ids_unique (db : DB) : Prop :=
  NoDup (charge_id <$> charge db).

(** The table after a call of [setChargeCurve]. *)
Definition after_setChargeCurve (db : DB) (vehicle : string)
    (cid lv dur : Z) (temp used added : option Z) : DB :=
  match setChargeCurve db vehicle cid lv dur temp used added with
  | Resolved (db', _) => db'
  | Rejected _ => db
  end.

(** Two samples that agree on session, level and duration. *)
Definition same_reading (b b' : DBChargeCurve) : Prop :=
  cc_charge_id b = cc_charge_id b' ∧ level b = level b'
  ∧ duration b = duration b'.

(** ** [queryHelper] and [queryWhere] *)

(** A JavaScript argument: [undefined], [null] or a value. *)
Inductive jsarg (V : Type) : Type :=
  | Undefined
  | Null
  | Value (v : V).
Arguments Undefined {V}.
Arguments Null {V}.
Arguments Value {V} v.

Global Instance jsarg_eq_dec {V} `{EqDecision V} : EqDecision (jsarg V).
Proof. solve_decision. Defined.

(** An element of the array given to [queryHelper]: a bare value, or the
    array [[value, text]]; [text] is [None] when the second element is
    [undefined]. *)
Inductive helper_field (V C : Type) : Type :=
  | Bare (v : jsarg V)
  | WithText (v : jsarg V) (text : option C).
Arguments Bare {V C} v.
Arguments WithText {V C} v text.

(** [f[0] !== undefined && f[1] !== undefined] *)
Definition field_text {V C} (f : helper_field V C) : option C :=
  match f with
  | Bare _ => None
  | WithText Undefined _ => None
  | WithText _ text => text
  end.

Definition field_value {V C} (f : helper_field V C) : jsarg V :=
  match f with
  | Bare v => v
  | WithText v _ => v
  end.

(** The body of the [for] loop of [queryHelper]: both arrays grow by
    [push]. *)
Definition queryHelper_step {V C} (acc : list (jsarg V) * list C)
    (f : helper_field V C) : list (jsarg V) * list C :=
  let '(values, where_) := acc in
  match f with
  | WithText v text =>
      (values ++ [v],
       match v, text with
       | Undefined, _ => where_
       | _, None => where_
       | _, Some t => where_ ++ [t]
       end)
  | Bare v => (values ++ [v], where_)
  end.

Definition queryHelper {V C} (fields : list (helper_field V C))
  : list (jsarg V) * list C :=
  foldl queryHelper_step ([], []) fields.

(** [where.join(" AND ")] wrapped in [` WHERE ... `], or the empty string. *)
Definition queryWhere (where_ : list string) : string :=
  match where_ with
  | [] => ""
  | _ :: _ => " WHERE " +:+ String.concat " AND " where_ +:+ " "
  end.

(** ** [getVehicles] and [getVehicle] *)

(** Modelled from the spec: the declaration of the table [vehicle] is not
    among the sources.  The columns are those the statement of
    [getVehicles] names; [veh_data] stands for all the others. *)
Record DBVehicle (D : Type) : Type := {
  veh_vehicle_uuid : string;
  veh_account_uuid : string;
  veh_name : string;
  veh_data : D
}.
Arguments veh_vehicle_uuid {D} _.
Arguments veh_account_uuid {D} _.
Arguments veh_name {D} _.
Arguments veh_data {D} _.

(** The two texts that [getVehicles] hands to [queryHelper]. *)
Inductive vehicle_clause : Type :=
  | VehicleIs   (* [vehicle_uuid = $1] *)
  | AccountIs.  (* [account_uuid = $2] *)

Definition vehicle_clause_text (c : vehicle_clause) : string :=
  match c with
  | VehicleIs => "vehicle_uuid = $1"
  | AccountIs => "account_uuid = $2"
  end.

(** A comparison [column = $n] on a row: the n-th value of the array is
    compared with the column; a comparison with [NULL] holds for no row. *)
Definition vehicle_clause_holds {D} (values : list (jsarg string))
    (row : DBVehicle D) (c : vehicle_clause) : Prop :=
  match c with
  | VehicleIs => values !! 0%nat = Some (Value (veh_vehicle_uuid row))
  | AccountIs => values !! 1%nat = Some (Value (veh_account_uuid row))
  end.

Global Instance vehicle_clause_holds_dec {D} values (row : DBVehicle D) c :
  Decision (vehicle_clause_holds values row c).
Proof. destruct c; simpl; apply _. Defined.

(** The text of the statement of [getVehicles]. *)
Definition getVehicles_sql (where_ : list vehicle_clause) : string :=
  "SELECT * FROM vehicle " +:+ queryWhere (vehicle_clause_text <$> where_)
  +:+ " ORDER BY name, vehicle_uuid;".

(** [getVehicles]; [order_by] is the sort of [ORDER BY name, vehicle_uuid],
    whose collation belongs to the database. *)
Definition getVehicles {D} (order_by : list (DBVehicle D) → list (DBVehicle D))
    (table : list (DBVehicle D)) (account_uuid vehicle_uuid : jsarg string)
  : list (DBVehicle D) :=
  let '(values, where_) :=
    queryHelper [WithText vehicle_uuid (Some VehicleIs);
                 WithText account_uuid (Some AccountIs)] in
  order_by (filter (λ row, Forall (vehicle_clause_holds values row) where_)
                   table).

Inductive lookup_error : Type :=
  | UnknownVehicle (id : string)  (* [Error(`Unknown vehicle id ${id}`)] *)
  | LengthAssertion.              (* [assert(dblist.length === 1)] *)

Inductive lookup (A : Type) : Type :=
  | Found (a : A)
  | Thrown (e : lookup_error).
Arguments Found {A} a.
Arguments Thrown {A} e.

Definition getVehicle {D} (order_by : list (DBVehicle D) → list (DBVehicle D))
    (table : list (DBVehicle D)) (account_uuid : jsarg string)
    (vehicle_uuid : string) : lookup (DBVehicle D) :=
  match getVehicles order_by table account_uuid (Value vehicle_uuid) with
  | [] => Thrown (UnknownVehicle vehicle_uuid)
  | [row] => Found row
  | _ :: _ :: _ => Thrown LengthAssertion
  end.

(** Whether a row passes the account filter of a caller. *)
Definition account_allows {D} (account_uuid : jsarg string)
    (row : DBVehicle D) : Prop :=
  match account_uuid with
  | Undefined => True
  | Null => False
  | Value acc => veh_account_uuid row = acc
  end.

Global Instance account_allows_dec {D} account_uuid (row : DBVehicle D) :
  Decision (account_allows account_uuid row).
Proof. destruct account_uuid; simpl; apply _. Defined.

(** ** [lookupKnownLocation] *)

(** Modelled from the spec: the declaration of the table [location] is not
    among the sources.  The columns are those [lookupKnownLocation] reads;
    [location_uuid] is optional because the loop tests it against [null]. *)
Record DBLocation : Type := {
  loc_location_uuid : option string;
  loc_account_uuid : string;
  loc_name : string;
  location_micro_latitude : Z;
  location_micro_longitude : Z;
  radius : Z
}.

(** [x / 1e6] *)
Definition per_million (x : Z) : Q := (inject_Z x / inject_Z 1000000)%Q.

(** [a < b] on numbers. *)
Definition Qltb (a b : Q) : bool := negb (Qle_bool b a).

Section lookup_known_location.

(** [geoDistance] of [@shared/utils], whose code is not among the sources,
    [Number.MAX_VALUE], and the sort of [ORDER BY name, location_uuid].
    Distances are exact numbers. *)
Variable geoDistance : Q → Q → Q → Q → Q.
Variable MAX_VALUE : Q.
Variable order_by : list DBLocation → list DBLocation.

Definition location_distance (latitude longitude : Z) (loc : DBLocation)
  : Q :=
  geoDistance (per_million latitude) (per_million longitude)
              (per_million (location_micro_latitude loc))
              (per_million (location_micro_longitude loc)).

(** The body of the [for] loop: the state is [bestLocation] and
    [bestDistance]. *)
Definition nearer (latitude longitude : Z) (best : option DBLocation * Q)
    (loc : DBLocation) : option DBLocation * Q :=
  match loc_location_uuid loc with
  | None => best
  | Some _ =>
      let distance := location_distance latitude longitude loc in
      if Qltb distance (inject_Z (radius loc)) && Qltb distance best.2
      then (Some loc, distance)
      else best
  end.

(** [SELECT * FROM location WHERE account_uuid = $1
     ORDER BY name, location_uuid;] and the loop over its rows. *)
Definition lookupKnownLocation (table : list DBLocation)
    (accountUUID : string) (latitude longitude : Z) : option DBLocation :=
  let locations :=
    order_by (filter (λ loc, loc_account_uuid loc = accountUUID) table) in
  (foldl (nearer latitude longitude) (None, MAX_VALUE) locations).1.

(** The point lies within the geofence of a location that has an id. *)
Definition within_fence (latitude longitude : Z) (loc : DBLocation) : Prop :=
  loc_location_uuid loc ≠ None
  ∧ (location_distance latitude longitude loc < inject_Z (radius loc))%Q.

(** What the loop has established after the rows [seen]. *)
Definition nearest_so_far (latitude longitude : Z) (seen : list DBLocation)
    (best : option DBLocation * Q) : Prop :=
  match best.1 with
  | None =>
      best.2 = MAX_VALUE
      ∧ ∀ loc, loc ∈ seen → ¬ within_fence latitude longitude loc
  | Some b =>
      b ∈ seen ∧ within_fence latitude longitude b
      ∧ best.2 = location_distance latitude longitude b
      ∧ ∀ loc, loc ∈ seen → within_fence latitude longitude loc →
               (location_distance latitude longitude b
                <= location_distance latitude longitude loc)%Q
  end.

End lookup_known_location.

(** A stand-in for [geoDistance] and two locations of one account, used to
    run [lookupKnownLocation]. *)
Definition grid_distance (a b c d : Q) : Q :=
  ((a - c) * (a - c) + (b - d) * (b - d))%Q.

Definition two_fences : list DBLocation :=
  [ {| loc_location_uuid := Some "home"; loc_account_uuid := "alice";
       loc_name := "Home"; location_micro_latitude := 3000000;
       location_micro_longitude := 0; radius := 250 |};
    {| loc_location_uuid := Some "work"; loc_account_uuid := "alice";
       loc_name := "Work"; location_micro_latitude := 900000000;
       location_micro_longitude := 0; radius := 250 |} ].

(** ** [maintainanceWorker] *)

(** Modelled from the spec: the declarations of the tables
    [service_provider], [vehicle] and [location] are not among the sources.
    Of [service_provider] the two columns the worker reads are kept; of
    [vehicle] and [location] only the column [service_uuid], which may be
    NULL. *)
Record DBServiceProvider : Type := {
  sp_service_uuid : string;
  sp_provider_name : string
}.

Record ServiceTables : Type := {
  service_provider : list DBServiceProvider;
  vehicle_service_uuid : list (option string);
  location_service_uuid : list (option string)
}.

(** The two variables the interval callback closes over. *)
Record WorkerState : Type := {
  nextCleanup : Z;
  orphanServices : gmap string bool
}.

(** [NOT EXISTS (SELECT * FROM vehicle WHERE vehicle.service_uuid =
     service_provider.service_uuid) AND NOT EXISTS (SELECT * FROM location
     WHERE location.service_uuid = service_provider.service_uuid)] *)
Definition is_orphan (db : ServiceTables) (o : DBServiceProvider) : Prop :=
  ¬ (Some (sp_service_uuid o) ∈ vehicle_service_uuid db)
  ∧ ¬ (Some (sp_service_uuid o) ∈ location_service_uuid db).

(** The body of the loop over the orphans: delete the service seen as an
    orphan before, remember the one seen for the first time. *)
Definition sweep_step (acc : gmap string bool * list DBServiceProvider)
    (o : DBServiceProvider) : gmap string bool * list DBServiceProvider :=
  if decide (acc.1 !! sp_service_uuid o = Some true)
  then (acc.1,
        filter (λ r, sp_service_uuid r ≠ sp_service_uuid o) acc.2)
  else (<[sp_service_uuid o := true]> acc.1, acc.2).

(** One run of the interval callback at the time [now] (milliseconds), as
    far as the three tables go; the statements on [stats_map] that follow
    the loop touch no table of this model.  A run is taken to end before
    the next one starts. *)
Definition maintenance_tick (now : Z) (st : WorkerState) (db : ServiceTables)
  : WorkerState * ServiceTables :=
  if decide (nextCleanup st < now) then
    let orphans := filter (is_orphan db) (service_provider db) in
    let swept :=
      foldl sweep_step (orphanServices st, service_provider db) orphans in
    ({| nextCleanup := now + 3600000; orphanServices := swept.1 |},
     {| service_provider := swept.2;
        vehicle_service_uuid := vehicle_service_uuid db;
        location_service_uuid := location_service_uuid db |})
  else (st, db).

(** One service without vehicle or location beside one that has a vehicle. *)
Definition db_one_orphan : ServiceTables :=
  {| service_provider :=
       [ {| sp_service_uuid := "s1"; sp_provider_name := "tesla" |};
         {| sp_service_uuid := "s2"; sp_provider_name := "tibber" |} ];
     vehicle_service_uuid := [Some "s1"; None];
     location_service_uuid := [] |}.

(** The state the worker starts with. *)
Definition worker_start : WorkerState :=
  {| nextCleanup := 0; orphanServices := ∅ |}.

(** * The Tibber agent *)

(** ** [TibberAgent.work] *)

Record TibberProviderData : Type := {
  home : string;
  currency : string;
  token : string;
  invalidToken : bool
}.

(** [TibberAgentSubject]: of the fields of [AgentJob], whose declaration is
    not among the sources, the one [work] reads. *)
Record TibberAgentSubject : Type := {
  subjectID : string;
  providerData : TibberProviderData
}.

Record PricePoint : Type := {
  total : Q;
  startsAt : string
}.

(** The answer of the price query, in the shape the query asks for:
    [errors] holds the messages of [res.errors] (none when it is absent),
    [current_currency] is [priceInfo.current.currency] when [current] and
    its currency are there. *)
Record TibberResponse : Type := {
  errors : list string;
  current_currency : option string;
  today : list PricePoint;
  tomorrow : list PricePoint
}.

(** The calls [work] makes on the smartcharge client. *)
Inductive sc_call : Type :=
  | UpdateLocationInvalidToken (id : string)
  | UpdateLocationCurrency (id : string) (currency : string)
  | UpdatePrice (id : string) (prices : list (string * Q)).

(** [s.match(/needle/)] for a pattern without special characters. *)
Fixpoint string_contains (needle s : string) : bool :=
  match s with
  | EmptyString => String.prefix needle EmptyString
  | String _ s' => String.prefix needle s || string_contains needle s'
  end.

(** [Math.trunc] on exact numbers. *)
Definition Qtrunc (q : Q) : Z :=
  if Qle_bool 0 q then Qfloor q else Qceiling q.

(** [const ts = Math.trunc(now / 1e3);
     interval = Math.trunc(ts / 3600 + 1) * 3600 - ts;] *)
Definition next_whole_hour (now : Z) : Z :=
  let ts := Qtrunc (inject_Z now / inject_Z 1000) in
  Qtrunc (inject_Z ts / inject_Z 3600 + 1) * 3600 - ts.

(** [res.errors && res.errors.length > 0 &&
     res.errors[0].message.match(/No valid access token/)] *)
Definition no_valid_access_token (res : TibberResponse) : bool :=
  match errors res with
  | [] => false
  | message :: _ => string_contains "No valid access token" message
  end.

(** The currency branch: [priceInfo.current && priceInfo.current.currency
    && job.providerData.currency !== priceInfo.current.currency]. *)
Definition currency_update (job : TibberAgentSubject) (res : TibberResponse)
  : list sc_call * TibberAgentSubject :=
  match current_currency res with
  | Some c =>
      if negb (String.eqb c "")
         && negb (String.eqb (currency (providerData job)) c)
      then ([UpdateLocationCurrency (subjectID job) c],
            {| subjectID := subjectID job;
               providerData :=
                 {| home := home (providerData job);
                    currency := c;
                    token := token (providerData job);
                    invalidToken := invalidToken (providerData job) |} |})
      else ([], job)
  | None => ([], job)
  end.

(** [work]: [now] is [Date.now()], [res] the answer of [tibberAPI.post],
    which is asked for only when the token is not flagged invalid.  The
    result is the calls made on the client in their order, the job as
    [work] leaves it, and the interval returned or the failed assertion. *)
Definition work (now : Z) (job : TibberAgentSubject) (res : TibberResponse)
  : list sc_call * TibberAgentSubject * outcome Z :=
  let interval := 60 in
  if invalidToken (providerData job) then ([], job, Resolved interval)
  else if no_valid_access_token res
  then ([UpdateLocationInvalidToken (subjectID job)], job, Resolved interval)
  else
    let '(calls, job') := currency_update job res in
    match today res ++ tomorrow res with
    | [] => (calls, job', Rejected AssertionError)
    | p :: ps =>
        let prices := (λ p, (startsAt p, total p)) <$> (p :: ps) in
        (calls ++ [UpdatePrice (subjectID job) prices], job',
         Resolved (next_whole_hour now))
    end.

(** A job and an answer with two price points. *)
Definition tibber_job : TibberAgentSubject :=
  {| subjectID := "loc1";
     providerData := {| home := "h"; currency := "SEK"; token := "t";
                        invalidToken := false |} |}.

Definition tibber_answer : TibberResponse :=
  {| errors := []; current_currency := Some "SEK";
     today := [ {| total := 1 # 2; startsAt := "2020-01-01T00:00" |} ];
     tomorrow := [ {| total := 3 # 4; startsAt := "2020-01-02T00:00" |} ] |}.

(** * Lemmas *)

Section values.

Lemma jsval_eqb_eq a b : jsval_eqb a b = true → a = b.
Proof.
  destruct a as [|p|p], b as [|q|q]; simpl; try done;
    intros H; f_equal; apply Qc_is_canon; by apply Qeq_bool_iff.
Qed.

Lemma truthy_not_nullish v : truthy v = true → not_nullish v = true.
Proof. by destruct v. Qed.

Lemma js_or_default_not_nullish v d :
  not_nullish d = true → not_nullish (js_or v d) = true.
Proof.
  intros Hd. unfold js_or. destruct (truthy v) eqn:E; [|done].
  by apply truthy_not_nullish.
Qed.

End values.

Section step_function.

Implicit Types (q pending popped : list CurveRow) (cur seed : jsval).

(** What one run of the [while] loop does: it removes the longest prefix
    of rows whose level is at most [lv] and keeps the last of them. *)
Lemma shift_while_spec lv cur q :
  ∃ popped rest,
    q = popped ++ rest
    ∧ shift_while lv cur q
      = (default cur (last (seconds <$> popped)), rest)
    ∧ Forall (λ r, row_level r ≤ lv) popped
    ∧ (∀ r, head rest = Some r → lv < row_level r).
Proof.
  revert cur. induction q as [|r q IH]; intros cur; simpl.
  - exists [], []. by repeat split.
  - destruct (Z.leb_spec (row_level r) lv) as [Hle|Hgt].
    + destruct (IH (seconds r)) as (popped & rest & -> & Hs & Hall & Hhd).
      exists (r :: popped), rest. rewrite Hs. repeat split; auto.
      f_equal. rewrite fmap_cons, last_cons.
      by destruct (last (seconds <$> popped)).
    + exists [], (r :: q). repeat split; auto.
      intros r' [= <-]. done.
Qed.

Lemma last_app_default {A} (d : A) (l1 l2 : list A) :
  default (default d (last l1)) (last l2) = default d (last (l1 ++ l2)).
Proof.
  destruct l2 as [|x l2 _] using rev_ind.
  - by rewrite app_nil_r.
  - by rewrite app_assoc, !last_snoc.
Qed.

Lemma filter_all {A} (P : A → Prop) `{∀ x, Decision (P x)} (l : list A) :
  Forall P l → filter P l = l.
Proof.
  induction 1 as [|x l Hx _ IH]; [done|].
  by rewrite filter_cons_True, IH.
Qed.

Lemma filter_none {A} (P : A → Prop) `{∀ x, Decision (P x)} (l : list A) :
  Forall (λ x, ¬ P x) l → filter P l = [].
Proof.
  induction 1 as [|x l Hx _ IH]; [done|].
  by rewrite filter_cons_False.
Qed.

Lemma filter_le_split lv (done rest : list CurveRow) :
  Forall (λ r, row_level r ≤ lv) done →
  Forall (λ r, lv < row_level r) rest →
  filter (λ r, row_level r ≤ lv) (done ++ rest) = done.
Proof.
  intros Hd Hr. rewrite filter_app, (filter_all _ done), filter_none.
  - apply app_nil_r.
  - eapply Forall_impl; [exact Hr|]. simpl. lia.
  - done.
Qed.

Lemma above_head lv (rest : list CurveRow) :
  StronglySorted by_level rest →
  (∀ r, head rest = Some r → lv < row_level r) →
  Forall (λ r, lv < row_level r) rest.
Proof.
  intros Hs Hhd. destruct rest as [|r rest]; [constructor|].
  apply StronglySorted_inv in Hs as [_ Hall].
  specialize (Hhd r eq_refl). constructor; [done|].
  eapply Forall_impl; [exact Hall|]. unfold by_level. simpl. lia.
Qed.

(** The loop invariant: [done] are the rows shifted so far, [q] the rows
    still pending, and [current] is the duration of the last row shifted. *)
Lemma foldl_curve_step seed pending (n : nat) :
  ∀ m done q (curve : ChargeCurve),
    pending = done ++ q →
    StronglySorted by_level pending →
    Forall (λ r, row_level r ≤ m) done →
    ∀ lv,
      (foldl curve_step
             (default seed (last (seconds <$> done)), q, curve)
             (seqZ m (Z.of_nat n))).2 !! lv
      = if decide (m ≤ lv < m + Z.of_nat n)
        then Some (step_value seed pending lv)
        else curve !! lv.
Proof.
  induction n as [|n IH]; intros m done q curve Hp Hs Hd lv.
  - simpl. case_decide; [lia|done].
  - rewrite seqZ_cons by lia.
    replace (Z.pred (Z.of_nat (S n))) with (Z.of_nat n) by lia.
    simpl foldl.
    destruct (shift_while_spec m (default seed (last (seconds <$> done))) q)
      as (popped & rest & -> & -> & Hpop & Hhd).
    rewrite last_app_default, <- fmap_app.
    assert (Forall (λ r, row_level r ≤ m) (done ++ popped)) as Hd'
      by (by apply Forall_app).
    assert (Forall (λ r, m < row_level r) rest) as Hrest.
    { apply above_head; [|done]. subst pending.
      rewrite app_assoc in Hs. by apply StronglySorted_app_1_r in Hs. }
    rewrite (IH (Z.succ m) (done ++ popped) rest).
    + destruct (decide (lv = m)) as [->|Hne].
      * rewrite lookup_insert_eq.
        rewrite decide_False, decide_True by lia.
        f_equal. unfold step_value. subst pending.
        by rewrite app_assoc, filter_le_split.
      * rewrite lookup_insert_ne by done.
        repeat case_decide; try done; lia.
    + by rewrite <- app_assoc.
    + done.
    + eapply Forall_impl; [exact Hd'|]. simpl. lia.
Qed.

(** The curve of the [for] loop over rows in [ORDER BY level] order. *)
Lemma fill_curve_lookup seed pending lv :
  StronglySorted by_level pending →
  fill_curve seed pending !! lv
  = if decide (0 ≤ lv ≤ 100) then Some (step_value seed pending lv)
    else None.
Proof.
  intros Hs. unfold fill_curve.
  pose proof (foldl_curve_step seed pending 101 0 [] pending ∅
                eq_refl Hs (Forall_nil_2 _) lv) as H.
  simpl default in H. change (Z.of_nat 101) with 101 in H.
  rewrite H, lookup_empty. repeat case_decide; try done; lia.
Qed.

Lemma fill_curve_constant seed : constant_curve seed (fill_curve seed []).
Proof.
  intros lv. rewrite fill_curve_lookup by constructor.
  by case_decide.
Qed.

End step_function.

Section grouping.

Lemma elem_of_insert_group x y l :
  x ∈ insert_group y l ↔ x = y ∨ x ∈ l.
Proof.
  induction l as [|z l IH]; simpl.
  - rewrite list_elem_of_singleton, elem_of_nil. tauto.
  - destruct (Z.ltb_spec y z); [by rewrite elem_of_cons|].
    destruct (Z.eqb_spec y z) as [->|].
    + rewrite elem_of_cons. tauto.
    + rewrite !elem_of_cons, IH. tauto.
Qed.

Lemma elem_of_group_levels x l : x ∈ group_levels l ↔ x ∈ l.
Proof.
  induction l as [|y l IH]; simpl; [done|].
  rewrite elem_of_insert_group, IH, elem_of_cons. tauto.
Qed.

Lemma insert_group_sorted y l :
  StronglySorted Z.lt l → StronglySorted Z.lt (insert_group y l).
Proof.
  induction 1 as [|z l Hs IH Hall]; simpl.
  - repeat constructor.
  - destruct (Z.ltb_spec y z) as [Hlt|Hge].
    + constructor; [by constructor|].
      constructor; [done|]. eapply Forall_impl; [exact Hall|]. simpl. lia.
    + destruct (Z.eqb_spec y z) as [->|Hne]; [by constructor|].
      constructor; [done|]. apply Forall_forall. intros w Hw.
      apply elem_of_insert_group in Hw as [->|Hw]; [lia|].
      by eapply Forall_forall in Hall.
Qed.

Lemma group_levels_sorted l : StronglySorted Z.lt (group_levels l).
Proof.
  induction l as [|y l IH]; simpl; [constructor|].
  by apply insert_group_sorted.
Qed.

Lemma group_levels_nil l : group_levels l = [] → l = [].
Proof.
  destruct l as [|y l]; [done|]. intros H.
  assert (y ∈ group_levels (y :: l)) as Hy
    by (apply elem_of_group_levels; left).
  rewrite H in Hy. by apply elem_of_nil in Hy.
Qed.

Lemma insert_asc_length x l : length (insert_asc x l) = S (length l).
Proof.
  induction l as [|y l IH]; simpl; [done|].
  destruct (x <=? y); simpl; by rewrite ?IH.
Qed.

Lemma sort_asc_length l : length (sort_asc l) = length l.
Proof.
  induction l as [|y l IH]; simpl; [done|].
  by rewrite insert_asc_length, IH.
Qed.

Lemma insert_asc_perm x l : insert_asc x l ≡ₚ x :: l.
Proof.
  induction l as [|y l IH]; simpl; [done|].
  destruct (x <=? y); [done|]. by rewrite IH, Permutation_swap.
Qed.

Lemma sort_asc_perm l : sort_asc l ≡ₚ l.
Proof.
  induction l as [|y l IH]; simpl; [done|].
  by rewrite insert_asc_perm, IH.
Qed.



End grouping.

Section median_facts.

Lemma Qfloor_half (z : Z) : Qfloor ((1 # 2) * inject_Z z) = z / 2.
Proof. unfold Qfloor, Qmult, inject_Z. simpl. by destruct z. Qed.

Lemma Qceiling_half (z : Z) : Qceiling ((1 # 2) * inject_Z z) = - (- z / 2).
Proof.
  unfold Qceiling. f_equal.
  replace (- ((1 # 2) * inject_Z z))%Q with ((1 # 2) * inject_Z (- z))%Q.
  - apply Qfloor_half.
  - unfold Qopp, Qmult, inject_Z. simpl. by destruct z.
Qed.

(** At the fraction 0.5 the interpolation of [percentile_cont] is the
    textbook median. *)
Lemma percentile_cont_half xs : percentile_cont (1 # 2) xs = median xs.
Proof.
  unfold percentile_cont, median.
  destruct (sort_asc xs) as [|x s] eqn:Es; [done|].
  set (l := x :: s). simpl length.
  replace (Z.of_nat (S (length s)) - 1) with (Z.of_nat (length s)) by lia.
  rewrite Qfloor_half, Qceiling_half.
  destruct (Nat.Even_or_Odd (length s)) as [[k Hk]|[k Hk]]; rewrite Hk.
  - replace (Nat.even (2 * k)) with true
      by (symmetry; apply Nat.even_spec; by exists k).
    rewrite Nat.div2_double.
    replace (Z.of_nat (2 * k)%nat / 2) with (Z.of_nat k)
      by (rewrite Nat2Z.inj_mul, Z.mul_comm, Z.div_mul; lia).
    replace (- (- Z.of_nat (2 * k)%nat / 2)) with (Z.of_nat k).
    2:{ replace (- Z.of_nat (2 * k)%nat) with ((- Z.of_nat k) * 2) by lia.
        rewrite Z.div_mul; lia. }
    rewrite Nat2Z.id, Z.sub_diag. f_equal. apply Q2Qc_eq_iff.
    unfold Qeq. simpl. lia.
  - replace (Nat.even (2 * k + 1)) with false.
    2:{ symmetry. apply Bool.not_true_is_false. rewrite Nat.even_spec.
        intros [j Hj]. lia. }
    replace (2 * k + 1)%nat with (S (2 * k)) by lia.
    rewrite Nat.div2_succ_double.
    replace (Z.of_nat (S (2 * k)) / 2) with (Z.of_nat k).
    2:{ apply Z.div_unique with (r := 1); lia. }
    replace (- (- Z.of_nat (S (2 * k)) / 2)) with (Z.of_nat (S k)).
    2:{ replace (- Z.of_nat (S (2 * k))) with ((- Z.of_nat (S k)) * 2 + 1)
          by lia.
        rewrite Z.div_add_l by lia. change (1 / 2) with 0. lia. }
    rewrite !Nat2Z.id. f_equal. apply Q2Qc_eq_iff.
    replace (Z.of_nat (S (2 * k))) with (2 * Z.of_nat k + 1) by lia.
    generalize (nth k l 0) (nth (S k) l 0) (Z.of_nat k).
    intros a b c. unfold Qeq, Qplus, Qminus, Qmult, Qdiv, Qopp, Qinv, inject_Z.
    simpl. lia.
Qed.

End median_facts.

Section step_value_facts.

Lemma step_value_cons seed r pending lv :
  step_value seed (r :: pending) lv
  = if decide (row_level r ≤ lv) then step_value (seconds r) pending lv
    else step_value seed pending lv.
Proof.
  unfold step_value. rewrite filter_cons. case_decide; [|done].
  rewrite fmap_cons, last_cons.
  by destruct (last (seconds <$> filter _ pending)).
Qed.

(** Over rows in level order the step function takes the duration of the
    row with the greatest level that is at most [lv]. *)
Lemma step_value_sorted pending lv :
  StronglySorted by_level pending →
  ∀ seed,
    (Forall (λ r, lv < row_level r) pending
     ∧ step_value seed pending lv = seed)
    ∨ (∃ r, r ∈ pending ∧ row_level r ≤ lv
            ∧ step_value seed pending lv = seconds r
            ∧ ∀ r', r' ∈ pending → row_level r' ≤ lv →
                    row_level r' ≤ row_level r).
Proof.
  induction 1 as [|r pending Hs IH Hall]; intros seed.
  - left. by split; [constructor|].
  - rewrite step_value_cons. case_decide as Hr.
    + right. destruct (IH (seconds r)) as [[Hab ->]|(r2 & Hin & Hle & -> & Hmax)].
      * exists r. repeat split; [left|done|].
        intros r' [->|Hr']%elem_of_cons Hle'; [done|].
        eapply Forall_forall in Hab; [|exact Hr']. simpl in Hab. lia.
      * exists r2. repeat split; [by right|done|].
        intros r' [->|Hr']%elem_of_cons Hle'; [|by apply Hmax].
        eapply Forall_forall in Hall; [|exact Hin]. exact Hall.
    + left. assert (Forall (λ r0, lv < row_level r0) pending) as Hab.
      { eapply Forall_impl; [exact Hall|]. unfold by_level. simpl. lia. }
      split; [constructor; [lia|done]|].
      destruct (IH seed) as [[_ ->]|(r2 & Hin & Hle & _)]; [done|].
      eapply Forall_forall in Hab; [|exact Hin]. simpl in Hab. lia.
Qed.

End step_value_facts.

Section queries.

Context (db : DB) (v loc : string).

Lemma elem_of_samples_at b :
  b ∈ samples_at db v loc ↔
  b ∈ charge_curve db
  ∧ ∃ a, a ∈ charge db ∧ charge_id a = cc_charge_id b
         ∧ vehicle_uuid a = v ∧ location_uuid a = loc.
Proof.
  unfold samples_at, join_charge_curve. rewrite list_elem_of_fmap. split.
  - intros ([a b'] & -> & Hin). simpl.
    apply list_elem_of_filter in Hin as [[Hv Hl] Hin]. simpl in *.
    apply list_elem_of_bind in Hin as (a' & Hin & Ha').
    apply list_elem_of_bind in Hin as (b'' & Hin & Hb'').
    apply list_elem_of_singleton in Hin as [= -> ->].
    apply list_elem_of_filter in Hb'' as [Hid Hb'']. eauto 10.
  - intros (Hb & a & Ha & Hid & Hv & Hl). exists (a, b). split; [done|].
    apply list_elem_of_filter. split; [done|].
    apply list_elem_of_bind. exists a. split; [|done].
    apply list_elem_of_bind. exists b. split; [by left|].
    by apply list_elem_of_filter.
Qed.

Lemma durations_at_measured lv :
  measured db v loc lv → durations_at (samples_at db v loc) lv ≠ [].
Proof.
  unfold measured, durations_at. intros (b & -> & Hb)%list_elem_of_fmap H.
  apply fmap_nil_inv in H.
  by eapply (filter_nil_not_elem_of (λ b', level b' = level b)).
Qed.

Lemma percentile_cont_not_nullish p xs :
  xs ≠ [] → not_nullish (percentile_cont p xs) = true.
Proof.
  intros Hxs. unfold percentile_cont.
  destruct (sort_asc xs) as [|x s] eqn:E; [|done].
  apply (f_equal length) in E. rewrite sort_asc_length in E.
  by destruct xs.
Qed.

Lemma level_median_seconds lv :
  seconds (level_median (samples_at db v loc) lv) = median_at db v loc lv.
Proof. apply percentile_cont_half. Qed.

Lemma select_level_median_sorted :
  StronglySorted by_level (select_level_median db v loc).
Proof.
  unfold select_level_median.
  eapply StronglySorted_fmap; [|apply group_levels_sorted].
  unfold by_level. simpl. lia.
Qed.

(** In one snapshot of the tables the first fallback query has no rows
    whenever the first query has none. *)
Lemma select_avg_duration_null :
  select_level_median db v loc = [] → select_avg_duration db v loc = JNull.
Proof.
  unfold select_level_median, select_avg_duration.
  intros H%fmap_nil_inv%group_levels_nil%fmap_nil_inv. by rewrite H.
Qed.

End queries.

Section curve.

Lemma chargeCurveFrom_fallback avgDuration avgEstimate :
  chargeCurveFrom [] avgDuration avgEstimate
  = Resolved
      (fill_curve
         (js_or (js_or avgDuration avgEstimate) (JNum (Zq (20 * 60)))) []).
Proof.
  unfold chargeCurveFrom. by rewrite js_or_default_not_nullish.
Qed.

Context (db : DB) (v loc : string).

Lemma getChargeCurve_unmeasured :
  samples_at db v loc = [] →
  getChargeCurve db v loc
  = Resolved
      (fill_curve
         (js_or (select_avg_estimate db v loc) (JNum (Zq (20 * 60)))) []).
Proof.
  intros H. unfold getChargeCurve, select_level_median, select_avg_duration.
  rewrite H. simpl. apply chargeCurveFrom_fallback.
Qed.

Lemma getChargeCurve_measured g0 gs :
  group_levels (level <$> samples_at db v loc) = g0 :: gs →
  getChargeCurve db v loc
  = Resolved
      (fill_curve (median_at db v loc g0)
                  (level_median (samples_at db v loc) <$> gs)).
Proof.
  intros Hg. unfold getChargeCurve, select_level_median. rewrite Hg.
  rewrite fmap_cons. unfold chargeCurveFrom.
  rewrite level_median_seconds. unfold median_at.
  rewrite <- percentile_cont_half, percentile_cont_not_nullish; [done|].
  apply durations_at_measured. apply elem_of_group_levels.
  rewrite Hg. left.
Qed.

(** The step function over the per-level medians, said with the levels
    that have samples: the median of the greatest measured level at or
    below [lv], and the median of the lowest measured level when every
    measured level is above [lv]. *)
Lemma step_value_measured g0 gs lv :
  group_levels (level <$> samples_at db v loc) = g0 :: gs →
  ∃ L, measured db v loc L
       ∧ step_value (median_at db v loc g0)
                    (level_median (samples_at db v loc) <$> gs) lv
         = median_at db v loc L
       ∧ ((L ≤ lv ∧ ∀ L', measured db v loc L' → L' ≤ lv → L' ≤ L)
          ∨ ((∀ L', measured db v loc L' → lv < L')
             ∧ ∀ L', measured db v loc L' → L ≤ L')).
Proof.
  intros Hg.
  pose proof (group_levels_sorted (level <$> samples_at db v loc)) as Hs.
  rewrite Hg in Hs. apply StronglySorted_inv in Hs as [Hs Hlt].
  assert (∀ L, measured db v loc L ↔ L = g0 ∨ L ∈ gs) as Hm.
  { intros L. unfold measured.
    by rewrite <- elem_of_group_levels, Hg, elem_of_cons. }
  assert (StronglySorted by_level
            (level_median (samples_at db v loc) <$> gs)) as Hs'.
  { eapply StronglySorted_fmap; [|exact Hs]. unfold by_level. simpl. lia. }
  destruct (step_value_sorted _ lv Hs' (median_at db v loc g0))
    as [[Hab ->]|(r & Hin & Hle & -> & Hmax)].
  - exists g0. split; [apply Hm; by left|]. split; [done|].
    assert (∀ L', L' ∈ gs → lv < L') as Hab'.
    { intros L' HL'. rewrite Forall_fmap in Hab.
      eapply Forall_forall in Hab; [|exact HL']. exact Hab. }
    destruct (decide (g0 ≤ lv)) as [Hle|Hgt].
    + left. split; [done|]. intros L' [->|HL']%Hm ?; [done|].
      apply Hab' in HL'. lia.
    + right. split; intros L' [->|HL']%Hm; try lia.
      * by apply Hab'.
      * eapply Forall_forall in Hlt; [|exact HL']. lia.
  - apply list_elem_of_fmap in Hin as (g & -> & Hg').
    exists g. split; [apply Hm; by right|].
    split; [apply level_median_seconds|].
    left. split; [done|]. intros L' [->|HL']%Hm HL.
    + eapply Forall_forall in Hlt; [|exact Hg']. lia.
    + apply (Hmax (level_median (samples_at db v loc) L')); [|done].
      by apply list_elem_of_fmap_2.
Qed.

Lemma fill_curve_measured_sorted gs :
  StronglySorted Z.lt gs →
  StronglySorted by_level (level_median (samples_at db v loc) <$> gs).
Proof.
  intros Hs. eapply StronglySorted_fmap; [|exact Hs].
  unfold by_level. simpl. lia.
Qed.

End curve.

Section domain.

(** A curve that is defined at each of the levels 0..100 and nowhere else
    has those 101 levels as its keys. *)
Lemma curve_domain (curve : ChargeCurve) (f : Z → jsval) :
  (∀ lv, curve !! lv = if decide (0 ≤ lv ≤ 100) then Some (f lv) else None) →
  dom curve = list_to_set (seqZ 0 101)
  ∧ size curve = 101%nat
  ∧ ∀ lv, is_Some (curve !! lv) ↔ 0 ≤ lv ≤ 100.
Proof.
  intros H.
  assert (∀ lv, is_Some (curve !! lv) ↔ 0 ≤ lv ≤ 100) as Hsome.
  { intros lv. rewrite H. case_decide; [done|].
    split; [by intros [? ?]|done]. }
  assert (dom curve = list_to_set (seqZ 0 101)) as Hdom.
  { apply set_eq. intros lv.
    rewrite elem_of_dom, elem_of_list_to_set, elem_of_seqZ, Hsome. lia. }
  split_and!; [done| |done].
  rewrite <- size_dom, Hdom, size_list_to_set by apply NoDup_seqZ.
  by rewrite length_seqZ.
Qed.

Lemma not_nullish_value v :
  not_nullish v = true → ∃ q, v = JNum q ∨ v = JText q.
Proof. destruct v; [done|eauto|eauto]. Qed.

Lemma percentile_cont_num p xs :
  not_nullish (percentile_cont p xs) = true →
  ∃ q, percentile_cont p xs = JNum q.
Proof.
  unfold percentile_cont. destruct (sort_asc xs); [done|eauto].
Qed.

Lemma median_at_num db v loc L :
  measured db v loc L → ∃ q, median_at db v loc L = JNum q.
Proof.
  intros HL. unfold median_at. rewrite <- percentile_cont_half.
  by apply percentile_cont_num, percentile_cont_not_nullish,
    durations_at_measured.
Qed.

End domain.

(** * The claims *)

(** ** The curve *)

(** C1: whenever the vehicle has samples at the location, [getChargeCurve]
    resolves; its first query row is the row of the lowest measured level
    and seeds the running duration; over the levels 0..100 the curve is the
    step function of the query rows, a row being adopted exactly from the
    first level that is at or above its own: at [lv] the curve is the
    median of the greatest measured level at or below [lv], and the median
    of the lowest measured level when there is none.  For the medians
    {10: 100, 50: 300} the curve is 100 on 0..9 and on 10..49 and 300 on
    50..100. *)
Theorem getChargeCurve_step_function (db : DB) (v loc : string)
    (Hsamples : samples_at db v loc ≠ []) :
  (∃ curve r rest,
      select_level_median db v loc = r :: rest
      ∧ getChargeCurve db v loc = Resolved curve
      ∧ (∀ r', r' ∈ rest → row_level r < row_level r')
      ∧ ∀ lv, 0 ≤ lv ≤ 100 →
          curve !! lv = Some (step_value (seconds r) rest lv)
          ∧ ∃ L, measured db v loc L
                 ∧ curve !! lv = Some (median_at db v loc L)
                 ∧ ((L ≤ lv
                     ∧ ∀ L', measured db v loc L' → L' ≤ lv → L' ≤ L)
                    ∨ ((∀ L', measured db v loc L' → lv < L')
                       ∧ ∀ L', measured db v loc L' → L ≤ L')))
  ∧ (∀ avgDuration avgEstimate,
       ∃ curve,
         chargeCurveFrom
           [ {| row_level := 10; seconds := JNum (Zq 100) |};
             {| row_level := 50; seconds := JNum (Zq 300) |} ]
           avgDuration avgEstimate = Resolved curve
         ∧ (∀ lv, 0 ≤ lv ≤ 9 → curve !! lv = Some (JNum (Zq 100)))
         ∧ (∀ lv, 10 ≤ lv ≤ 49 → curve !! lv = Some (JNum (Zq 100)))
         ∧ (∀ lv, 50 ≤ lv ≤ 100 → curve !! lv = Some (JNum (Zq 300)))).
Proof.
  split.
  - destruct (group_levels (level <$> samples_at db v loc)) as [|g0 gs] eqn:Hg.
    { by apply group_levels_nil, fmap_nil_inv in Hg. }
    pose proof (group_levels_sorted (level <$> samples_at db v loc)) as Hs.
    rewrite Hg in Hs. apply StronglySorted_inv in Hs as [Hs Hlt].
    eexists _, (level_median (samples_at db v loc) g0),
      (level_median (samples_at db v loc) <$> gs).
    split; [unfold select_level_median; by rewrite Hg|].
    split; [by apply getChargeCurve_measured|].
    split.
    { intros r' (g & -> & Hin)%list_elem_of_fmap. simpl.
      by eapply Forall_forall in Hlt. }
    intros lv Hlv.
    rewrite fill_curve_lookup by by apply fill_curve_measured_sorted.
    rewrite decide_True by done. rewrite level_median_seconds.
    split; [done|].
    destruct (step_value_measured db v loc g0 gs lv Hg) as (L & HL & -> & Hc).
    by exists L.
  - intros avgDuration avgEstimate. eexists. split; [reflexivity|].
    assert (StronglySorted by_level
              [ {| row_level := 50; seconds := JNum (Zq 300) |} ]) as Hs
      by repeat constructor.
    repeat split; intros lv Hlv; rewrite fill_curve_lookup by done;
      rewrite decide_True by lia; f_equal;
      rewrite step_value_cons; simpl; case_decide; try done; lia.
Qed.

Lemma getChargeCurve_step_function_witness :
  samples_at db_one_session "V" "L" ≠ []
  ∧ ∃ curve r rest,
      select_level_median db_one_session "V" "L" = r :: rest
      ∧ getChargeCurve db_one_session "V" "L" = Resolved curve
      ∧ (∀ r', r' ∈ rest → row_level r < row_level r')
      ∧ ∀ lv, 0 ≤ lv ≤ 100 →
          curve !! lv = Some (step_value (seconds r) rest lv)
          ∧ ∃ L, measured db_one_session "V" "L" L
                 ∧ curve !! lv = Some (median_at db_one_session "V" "L" L)
                 ∧ ((L ≤ lv
                     ∧ ∀ L', measured db_one_session "V" "L" L' →
                             L' ≤ lv → L' ≤ L)
                    ∨ ((∀ L', measured db_one_session "V" "L" L' → lv < L')
                       ∧ ∀ L', measured db_one_session "V" "L" L' → L ≤ L')).
Proof.
  assert (samples_at db_one_session "V" "L" ≠ []) as H
    by (vm_compute; discriminate).
  split; [exact H|].
  exact (proj1 (getChargeCurve_step_function db_one_session "V" "L" H)).
Defined.

(** The scenario of one session with the samples (0, 60), (5, 55) and
    (40, 200): 60 on 0..4, 55 on 5..39, 200 on 40..100, and a calibration
    of 40. *)
Example one_session_scenario :
  ∃ curve,
    getChargeCurve db_one_session "V" "L" = Resolved curve
    ∧ (∀ lv, 0 ≤ lv ≤ 4 → curve !! lv = Some (JNum (Zq 60)))
    ∧ (∀ lv, 5 ≤ lv ≤ 39 → curve !! lv = Some (JNum (Zq 55)))
    ∧ (∀ lv, 40 ≤ lv ≤ 100 → curve !! lv = Some (JNum (Zq 200)))
    ∧ chargeCalibration db_one_session "V" 1 = Resolved (Some 40).
Proof.
  eexists. split.
  { by apply (getChargeCurve_measured db_one_session "V" "L" 0 [5; 40]). }
  assert (StronglySorted by_level
            (level_median (samples_at db_one_session "V" "L") <$> [5; 40]))
    as Hs by (apply fill_curve_measured_sorted; repeat constructor; lia).
  assert (∀ L v, jsval_eqb (median_at db_one_session "V" "L" L) (JNum (Zq v))
                 = true →
                 median_at db_one_session "V" "L" L = JNum (Zq v)) as Heq
    by (intros; by apply jsval_eqb_eq).
  pose proof (Heq 0 60 eq_refl) as H0.
  pose proof (Heq 5 55 eq_refl) as H5.
  pose proof (Heq 40 200 eq_refl) as H40.
  split_and!; [| | |done]; intros lv Hlv;
    rewrite fill_curve_lookup by done; rewrite decide_True by lia; f_equal;
    rewrite !fmap_cons, fmap_nil, !step_value_cons, !level_median_seconds;
    cbn [row_level level_median]; unfold step_value; simpl;
    repeat case_decide; try lia; done.
Qed.

(** C3: for every state of the tables and every vehicle and location,
    [getChargeCurve] resolves (the assertion on [current] never fails, with
    or without samples), and the curve it returns has exactly the 101 keys
    0..100, each mapped to a duration: a number, or the text of a number
    where the value is an average. *)
Theorem getChargeCurve_total (db : DB) (v loc : string) :
  ∃ curve,
    getChargeCurve db v loc = Resolved curve
    ∧ dom curve = list_to_set (seqZ 0 101)
    ∧ size curve = 101%nat
    ∧ (∀ lv, is_Some (curve !! lv) ↔ 0 ≤ lv ≤ 100)
    ∧ ∀ lv, 0 ≤ lv ≤ 100 →
        ∃ q, curve !! lv = Some (JNum q) ∨ curve !! lv = Some (JText q).
Proof.
  destruct (group_levels (level <$> samples_at db v loc)) as [|g0 gs] eqn:Hg.
  - apply group_levels_nil, fmap_nil_inv in Hg.
    eexists. split; [by apply getChargeCurve_unmeasured|].
    set (seed := js_or _ _).
    pose proof (fill_curve_constant seed) as Hc. unfold constant_curve in Hc.
    destruct (curve_domain _ (λ _, seed) Hc) as (Hdom & Hsize & Hsome).
    split_and!; try done.
    intros lv Hlv. rewrite Hc, decide_True by done.
    destruct (not_nullish_value seed) as [q [-> | ->]];
      [by apply js_or_default_not_nullish|exists q; by left|
       exists q; by right].
  - pose proof (group_levels_sorted (level <$> samples_at db v loc)) as Hs.
    rewrite Hg in Hs. apply StronglySorted_inv in Hs as [Hs _].
    apply (fill_curve_measured_sorted db v loc) in Hs.
    eexists. split; [by apply getChargeCurve_measured|].
    pose proof (λ lv, fill_curve_lookup (median_at db v loc g0) _ lv Hs) as Hc.
    destruct (curve_domain _ _ Hc) as (Hdom & Hsize & Hsome).
    split_and!; try done.
    intros lv Hlv. rewrite Hc, decide_True by done.
    destruct (step_value_measured db v loc g0 gs lv Hg) as (L & HL & -> & _).
    destruct (median_at_num db v loc L HL) as [q ->]. exists q. by left.
Qed.

Lemma getChargeCurve_total_witness :
  ∃ curve,
    getChargeCurve db_zero_estimate "V" "L" = Resolved curve
    ∧ dom curve = list_to_set (seqZ 0 101)
    ∧ size curve = 101%nat.
Proof.
  destruct (getChargeCurve_total db_zero_estimate "V" "L")
    as (curve & Hget & Hdom & Hsize & _).
  exists curve. split; [exact Hget|]. split; [exact Hdom|exact Hsize].
Defined.

(** ** The fallback chain *)

Lemma sql_avg_no_rows {A} (f : A → Q) (P : A → Prop)
    `{∀ x, Decision (P x)} (l : list A) :
  (∀ x, x ∈ l → ¬ P x) → sql_avg (f <$> filter P l) = JNull.
Proof.
  intros Hl. by rewrite filter_none by by apply Forall_forall.
Qed.

Lemma sql_avg_rows {A} (f : A → Q) (l : list A) :
  l ≠ [] → sql_avg (f <$> l) = JText (mean (f <$> l)).
Proof. by destruct l. Qed.

(** An [AVG] cell is [null] or text, so [||] passes over it exactly when
    it is [null]. *)
Lemma js_or_avg (xs ys : list Q) (fixed : jsval) :
  js_or (js_or (sql_avg xs) (sql_avg ys)) fixed
  = first_non_null (sql_avg xs) (sql_avg ys) fixed.
Proof. by destruct xs, ys. Qed.

Lemma sum_zero (xs : list Q) :
  Forall (λ x, x == 0)%Q xs → (foldr Qplus 0 xs == 0)%Q.
Proof.
  induction 1 as [|x xs Hx _ IH]; simpl; [done|].
  rewrite Hx, IH. reflexivity.
Qed.

Lemma mean_zero (xs : list Q) :
  Forall (λ x, x == 0)%Q xs → mean xs = Zq 0.
Proof.
  intros Hzero. unfold mean, Zq. apply Q2Qc_eq_iff.
  rewrite (sum_zero _ Hzero). unfold Qdiv. apply Qmult_0_l.
Qed.

Lemma getChargeCurve_between_fallback db1 db2 db3 v loc :
  select_level_median db1 v loc = [] →
  getChargeCurve_between db1 db2 db3 v loc
  = Resolved
      (fill_curve
         (first_non_null (select_avg_duration db2 v loc)
                         (select_avg_estimate db3 v loc)
                         (JNum (Zq 1200))) []).
Proof.
  intros Hnone. unfold getChargeCurve_between. rewrite Hnone.
  rewrite chargeCurveFrom_fallback.
  unfold select_avg_duration, select_avg_estimate. by rewrite js_or_avg.
Qed.



(** ** The per-level median *)




(** ** The upsert *)

Section upsert.

Implicit Types (x r : DBChargeCurve) (t : list DBChargeCurve).

(** On a conflict every column that is not part of the key is taken from
    the proposed row, so the stored row becomes the proposed row. *)
Lemma do_update_excluded r x : curve_key r = curve_key x → do_update r x = x.
Proof.
  destruct r, x. unfold curve_key, do_update. simpl. by intros [= -> -> ->].
Qed.

Lemma insert_on_conflict_row x t : (insert_on_conflict x t).2 = x.
Proof.
  induction t as [|r t IH]; simpl; [done|].
  case_decide; simpl; [by apply do_update_excluded|].
  by destruct (insert_on_conflict x t).
Qed.

Lemma insert_on_conflict_elem x t : x ∈ (insert_on_conflict x t).1.
Proof.
  induction t as [|r t IH]; simpl; [left|].
  case_decide; simpl.
  - rewrite do_update_excluded by done. left.
  - destruct (insert_on_conflict x t). by right.
Qed.

(** Rows with another key stay, in their order. *)
Lemma insert_on_conflict_frame x t (P : DBChargeCurve → Prop)
    `{∀ r, Decision (P r)} :
  (∀ r, P r → curve_key r ≠ curve_key x) →
  filter P (insert_on_conflict x t).1 = filter P t.
Proof.
  intros HP.
  assert (∀ r, curve_key r = curve_key x → ¬ P r) as HP'
    by (intros r Hr Hp; by apply (HP r)).
  induction t as [|r t IH]; simpl.
  - rewrite filter_cons_False; [done|]. by apply HP'.
  - case_decide as Hk; simpl.
    + rewrite !filter_cons_False; [done| |]; apply HP'; [done|].
      by rewrite do_update_excluded.
    + destruct (insert_on_conflict x t) as [t' row]. simpl in *.
      by rewrite !filter_cons, IH.
Qed.

(** The rows with the key of the proposed row: the proposed row takes
    the place of the first of them. *)
Lemma insert_on_conflict_key x t :
  filter (λ r, curve_key r = curve_key x) (insert_on_conflict x t).1
  = x :: tail (filter (λ r, curve_key r = curve_key x) t).
Proof.
  induction t as [|r t IH]; simpl.
  - by rewrite filter_cons_True.
  - case_decide as Hk; simpl.
    + rewrite do_update_excluded by done.
      by rewrite !filter_cons_True.
    + destruct (insert_on_conflict x t) as [t' row]. simpl in *.
      by rewrite !filter_cons_False.
Qed.

Lemma insert_on_conflict_keys x t :
  curve_key <$> (insert_on_conflict x t).1
  = if decide (curve_key x ∈ curve_key <$> t) then curve_key <$> t
    else (curve_key <$> t) ++ [curve_key x].
Proof.
  induction t as [|r t IH].
  - rewrite decide_False; [done|]. apply not_elem_of_nil.
  - cbn [insert_on_conflict].
    destruct (decide (curve_key r = curve_key x)) as [Hk|Hk].
    + rewrite decide_True by (rewrite fmap_cons, Hk; left).
      cbn [fst]. by rewrite !fmap_cons, do_update_excluded, Hk.
    + destruct (insert_on_conflict x t) as [t' row]. cbn [fst] in *.
      rewrite !fmap_cons, IH.
      destruct (decide (curve_key x ∈ curve_key <$> t)) as [Hin|Hnin].
      * rewrite decide_True; [done|]. by right.
      * rewrite decide_False; [done|].
        intros [?|?]%elem_of_cons; [congruence|done].
Qed.

Lemma insert_on_conflict_unique x t :
  key_unique t → key_unique (insert_on_conflict x t).1.
Proof.
  unfold key_unique. rewrite insert_on_conflict_keys. intros Hu.
  case_decide as Hin; [done|].
  apply NoDup_app. split_and!; [done| |apply NoDup_singleton].
  intros k Hk ->%list_elem_of_singleton. done.
Qed.

Lemma key_unique_filter t k :
  key_unique t → tail (filter (λ r, curve_key r = k) t) = [].
Proof.
  unfold key_unique. induction t as [|r t IH]; [done|].
  rewrite fmap_cons, NoDup_cons. intros [Hr Hu].
  rewrite filter_cons. case_decide as Hk; [|by apply IH]. simpl.
  apply filter_none, Forall_forall. intros r' Hr' Hk'.
  apply Hr. rewrite Hk, <- Hk'. by apply list_elem_of_fmap_2.
Qed.

(** Two upserts with different keys, in either order, leave the same
    rows under every key. *)
Lemma insert_on_conflict_swap x1 x2 t k :
  curve_key x1 ≠ curve_key x2 →
  filter (λ r, curve_key r = k)
         (insert_on_conflict x2 (insert_on_conflict x1 t).1).1
  = filter (λ r, curve_key r = k)
           (insert_on_conflict x1 (insert_on_conflict x2 t).1).1.
Proof.
  intros Hne.
  destruct (decide (k = curve_key x1)) as [->|Hk1];
    [|destruct (decide (k = curve_key x2)) as [->|Hk2]].
  - rewrite (insert_on_conflict_frame x2) by (intros r ->; done).
    rewrite !insert_on_conflict_key.
    by rewrite (insert_on_conflict_frame x2) by (intros r ->; done).
  - rewrite (insert_on_conflict_frame x1 (insert_on_conflict x2 t).1)
      by (intros r ->; done).
    rewrite !insert_on_conflict_key.
    by rewrite (insert_on_conflict_frame x1) by (intros r ->; done).
  - rewrite !insert_on_conflict_frame; first done;
      intros r -> Hx; by rewrite Hx in *.
Qed.

Lemma setChargeCurve_resolved db vehicle cid lv dur temp used added :
  setChargeCurve db vehicle cid lv dur temp used added
  = Resolved
      ({| charge := charge db;
          charge_curve :=
            (insert_on_conflict
               (make_input vehicle cid lv dur temp used added)
               (charge_curve db)).1 |},
       make_input vehicle cid lv dur temp used added).
Proof.
  unfold setChargeCurve.
  pose proof (insert_on_conflict_row
                (make_input vehicle cid lv dur temp used added)
                (charge_curve db)) as Hrow.
  destruct (insert_on_conflict _ (charge_curve db)) as [t row].
  simpl in Hrow. by rewrite Hrow.
Qed.

Lemma make_input_columns vehicle cid lv dur temp used added :
  make_input vehicle cid lv dur temp used added
  = {| cc_vehicle_uuid := vehicle; cc_charge_id := cid; level := lv;
       duration := dur; outside_deci_temperature := temp;
       energy_used := used; energy_added := added |}.
Proof. by destruct temp, used, added. Qed.

End upsert.

(** C4, as stated, fails: a call with level 150 and duration -5 is not
    rejected; it resolves, and the table holds a new row with exactly
    those values. *)
Lemma setChargeCurve_accepts_out_of_range :
  ∃ db' row,
    setChargeCurve db_one_session "V" 1 150 (-5) None None None
    = Resolved (db', row)
    ∧ level row = 150
    ∧ duration row = -5
    ∧ row ∈ charge_curve db'
    ∧ ¬ (row ∈ charge_curve db_one_session)
    ∧ length (charge_curve db')
      = S (length (charge_curve db_one_session)).
Proof.
  eexists _, _. split; [apply setChargeCurve_resolved|].
  split_and!; try done.
  - apply insert_on_conflict_elem.
  - intros H%(list_elem_of_fmap_2 level). simpl in H.
    rewrite !elem_of_cons, elem_of_nil in H. lia.
Qed.

(** C4 (amended): [setChargeCurve] checks neither the level nor the
    duration: for every level and every duration, in range or not, the
    call resolves, and the row it returns and stores carries the vehicle,
    the session, the level and the duration as they were given, unclamped. *)
Theorem setChargeCurve_stores_as_given (db : DB) (vehicle : string)
    (cid lv dur : Z) (temp used added : option Z) :
  ∃ db' row,
    setChargeCurve db vehicle cid lv dur temp used added = Resolved (db', row)
    ∧ row ∈ charge_curve db'
    ∧ cc_vehicle_uuid row = vehicle
    ∧ cc_charge_id row = cid
    ∧ level row = lv
    ∧ duration row = dur.
Proof.
  eexists _, _. split; [apply setChargeCurve_resolved|].
  split_and!; try done. apply insert_on_conflict_elem.
Qed.

Lemma setChargeCurve_stores_as_given_witness :
  ∃ db' row,
    setChargeCurve db_one_session "V" 1 150 (-5) None None None
    = Resolved (db', row)
    ∧ level row = 150
    ∧ duration row = -5.
Proof.
  destruct (setChargeCurve_stores_as_given
              db_one_session "V" 1 150 (-5) None None None)
    as (db' & row & Hset & _ & _ & _ & Hlevel & Hduration).
  exists db', row. split; [exact Hset|]. split; [exact Hlevel|exact Hduration].
Defined.

(** C5, as stated, fails: a second write for the same key that leaves out
    the temperature and the energy added does not keep the stored 50 and
    9; both columns become NULL. *)
Lemma omitted_fields_not_kept :
  ∃ db' row,
    setChargeCurve db_with_energy "V" 1 20 120 None (Some 8) None
    = Resolved (db', row)
    ∧ charge_curve db' = [row]
    ∧ duration row = 120
    ∧ energy_used row = Some 8
    ∧ outside_deci_temperature row = None
    ∧ outside_deci_temperature row ≠ Some 50
    ∧ energy_added row = None
    ∧ energy_added row ≠ Some 9.
Proof.
  eexists _, _. split; [apply setChargeCurve_resolved|].
  by split_and!.
Qed.

(** C5 (amended): when the key (vehicle, level, session) is already in the
    table, the call replaces the duration, the temperature and the two
    energies of that row by those of the proposed row: a value that was
    given is stored, and a field that was left out is stored as NULL,
    whatever the row held before. *)
Theorem upsert_conflict_overwrites (db : DB) (vehicle : string)
    (cid lv dur : Z) (temp used added : option Z) (old : DBChargeCurve)
    (Hunique : key_unique (charge_curve db))
    (Hold : old ∈ charge_curve db)
    (Hkey : curve_key old = (vehicle, lv, cid)) :
  ∃ db' row,
    setChargeCurve db vehicle cid lv dur temp used added = Resolved (db', row)
    ∧ filter (λ r, curve_key r = (vehicle, lv, cid)) (charge_curve db')
      = [row]
    ∧ length (charge_curve db') = length (charge_curve db)
    ∧ duration row = dur
    ∧ outside_deci_temperature row = temp
    ∧ energy_used row = used
    ∧ energy_added row = added
    ∧ (temp = None → outside_deci_temperature row = None)
    ∧ (used = None → energy_used row = None)
    ∧ (added = None → energy_added row = None).
Proof.
  eexists _, _. split; [apply setChargeCurve_resolved|].
  set (x := make_input vehicle cid lv dur temp used added).
  assert (curve_key x = (vehicle, lv, cid)) as Hx by done.
  cbn [charge_curve].
  split_and!.
  - rewrite <- Hx, insert_on_conflict_key. by rewrite key_unique_filter.
  - pose proof (insert_on_conflict_keys x (charge_curve db)) as Hk.
    rewrite decide_True in Hk.
    + apply (f_equal length) in Hk. by rewrite !length_fmap in Hk.
    + rewrite Hx, <- Hkey. by apply list_elem_of_fmap_2.
  - done.
  - unfold x. by rewrite make_input_columns.
  - unfold x. by rewrite make_input_columns.
  - unfold x. by rewrite make_input_columns.
  - by intros ->.
  - intros ->. unfold x. by rewrite make_input_columns.
  - intros ->. unfold x. by rewrite make_input_columns.
Qed.

Lemma upsert_conflict_overwrites_witness :
  ∃ db' row,
    setChargeCurve db_with_energy "V" 1 20 120 None (Some 8) None
    = Resolved (db', row)
    ∧ filter (λ r, curve_key r = ("V", 20, 1)) (charge_curve db') = [row]
    ∧ length (charge_curve db') = length (charge_curve db_with_energy)
    ∧ duration row = 120
    ∧ outside_deci_temperature row = None
    ∧ energy_used row = Some 8
    ∧ energy_added row = None
    ∧ (@None Z = None → outside_deci_temperature row = None)
    ∧ (Some 8 = None → energy_used row = None)
    ∧ (@None Z = None → energy_added row = None).
Proof.
  assert (key_unique (charge_curve db_with_energy)) as Hu.
  { unfold key_unique. simpl. apply NoDup_singleton. }
  assert (∃ old, old ∈ charge_curve db_with_energy
                 ∧ curve_key old = ("V", 20, 1)) as (old & Hold & Hkey)
    by (eexists; split; [left|reflexivity]).
  exact (upsert_conflict_overwrites db_with_energy "V" 1 20 120
           None (Some 8) None old Hu Hold Hkey).
Defined.

(** C7: in a table that respects its key, two writes for the same
    (vehicle, session, level) leave exactly one row with that key, and it
    holds the duration and the optional fields of the second write; the
    second write adds no row, and the key stays unique. *)
Theorem setChargeCurve_twice_one_row (db : DB) (vehicle : string)
    (cid lv : Z) (dur1 dur2 : Z)
    (temp1 used1 added1 temp2 used2 added2 : option Z)
    (Hunique : key_unique (charge_curve db)) :
  ∃ db1 row1 db2 row2,
    setChargeCurve db vehicle cid lv dur1 temp1 used1 added1
    = Resolved (db1, row1)
    ∧ setChargeCurve db1 vehicle cid lv dur2 temp2 used2 added2
      = Resolved (db2, row2)
    ∧ filter (λ r, curve_key r = (vehicle, lv, cid)) (charge_curve db2)
      = [row2]
    ∧ row2 = {| cc_vehicle_uuid := vehicle; cc_charge_id := cid;
                level := lv; duration := dur2;
                outside_deci_temperature := temp2;
                energy_used := used2; energy_added := added2 |}
    ∧ length (charge_curve db2) = length (charge_curve db1)
    ∧ key_unique (charge_curve db2).
Proof.
  eexists _, _, _, _.
  split; [apply setChargeCurve_resolved|].
  split; [apply setChargeCurve_resolved|].
  cbn [charge_curve].
  set (x1 := make_input vehicle cid lv dur1 temp1 used1 added1).
  set (x2 := make_input vehicle cid lv dur2 temp2 used2 added2).
  assert (key_unique (insert_on_conflict x1 (charge_curve db)).1) as Hu1
    by by apply insert_on_conflict_unique.
  split_and!.
  - change (vehicle, lv, cid) with (curve_key x2).
    by rewrite insert_on_conflict_key, key_unique_filter.
  - apply make_input_columns.
  - pose proof (insert_on_conflict_keys
                  x2 (insert_on_conflict x1 (charge_curve db)).1) as Hk.
    rewrite decide_True in Hk.
    + apply (f_equal length) in Hk. by rewrite !length_fmap in Hk.
    + change (curve_key x2) with (curve_key x1).
      apply list_elem_of_fmap_2, insert_on_conflict_elem.
  - by apply insert_on_conflict_unique.
Qed.

Lemma setChargeCurve_twice_one_row_witness :
  ∃ db1 row1 db2 row2,
    setChargeCurve db_one_session "V" 1 5 70 None None None
    = Resolved (db1, row1)
    ∧ setChargeCurve db1 "V" 1 5 80 (Some 12) None None
      = Resolved (db2, row2)
    ∧ filter (λ r, curve_key r = ("V", 5, 1)) (charge_curve db2) = [row2]
    ∧ row2 = {| cc_vehicle_uuid := "V"; cc_charge_id := 1;
                level := 5; duration := 80;
                outside_deci_temperature := Some 12;
                energy_used := None; energy_added := None |}
    ∧ length (charge_curve db2) = length (charge_curve db1)
    ∧ key_unique (charge_curve db2).
Proof.
  apply (setChargeCurve_twice_one_row db_one_session "V" 1 5 70 80
           None None None (Some 12) None None).
  unfold key_unique. vm_compute. repeat constructor;
    rewrite ?elem_of_cons, ?elem_of_nil; intros H;
    repeat (destruct H as [H|H]; [discriminate H|]); exact H.
Defined.

(** C9: a write keeps the [charge] table as it is and keeps every row of
    [charge_curve] whose key is not the one written, in place and
    unchanged; the table grows by at most the one row of the written key;
    writes to two different keys leave, whatever their order, the same
    rows under every key. *)
Theorem setChargeCurve_frame (db : DB) (vehicle : string)
    (cid lv dur : Z) (temp used added : option Z) :
  ∃ db' row,
    setChargeCurve db vehicle cid lv dur temp used added = Resolved (db', row)
    ∧ charge db' = charge db
    ∧ filter (λ r, curve_key r ≠ (vehicle, lv, cid)) (charge_curve db')
      = filter (λ r, curve_key r ≠ (vehicle, lv, cid)) (charge_curve db)
    ∧ (∀ r, curve_key r ≠ (vehicle, lv, cid) →
            (r ∈ charge_curve db' ↔ r ∈ charge_curve db))
    ∧ (∀ k, k ≠ (vehicle, lv, cid) →
            filter (λ r, curve_key r = k) (charge_curve db')
            = filter (λ r, curve_key r = k) (charge_curve db))
    ∧ (length (charge_curve db') ≤ S (length (charge_curve db)))%nat
    ∧ (length (charge_curve db) ≤ length (charge_curve db'))%nat
    ∧ (∀ vehicle' cid' lv' dur' temp' used' added' k,
         (vehicle', lv', cid') ≠ (vehicle, lv, cid) →
         let x := make_input vehicle cid lv dur temp used added in
         let x' := make_input vehicle' cid' lv' dur' temp' used' added' in
         filter (λ r, curve_key r = k)
                (insert_on_conflict x'
                   (insert_on_conflict x (charge_curve db)).1).1
         = filter (λ r, curve_key r = k)
                  (insert_on_conflict x
                     (insert_on_conflict x' (charge_curve db)).1).1).
Proof.
  eexists _, _. split; [apply setChargeCurve_resolved|].
  set (x := make_input vehicle cid lv dur temp used added).
  cbn [charge charge_curve].
  assert (filter (λ r, curve_key r ≠ (vehicle, lv, cid))
                 (insert_on_conflict x (charge_curve db)).1
          = filter (λ r, curve_key r ≠ (vehicle, lv, cid)) (charge_curve db))
    as Hframe by by apply insert_on_conflict_frame.
  pose proof (insert_on_conflict_keys x (charge_curve db)) as Hk.
  apply (f_equal length) in Hk. rewrite length_fmap in Hk.
  split_and!.
  - done.
  - done.
  - intros r Hr.
    assert (∀ t : list DBChargeCurve,
              r ∈ t ↔
              r ∈ filter (λ r, curve_key r ≠ (vehicle, lv, cid)) t) as Hin.
    { intros t. rewrite list_elem_of_filter. tauto. }
    by rewrite (Hin (charge_curve db)), <- Hframe, <- Hin.
  - intros k Hne. apply insert_on_conflict_frame.
    intros r -> Hx. by apply Hne.
  - rewrite Hk. case_decide; rewrite ?length_app, length_fmap; simpl; lia.
  - rewrite Hk. case_decide; rewrite ?length_app, length_fmap; simpl; lia.
  - intros vehicle' cid' lv' dur' temp' used' added' k Hne. simpl.
    apply insert_on_conflict_swap. by intros [= -> -> ->].
Qed.

Lemma setChargeCurve_frame_witness :
  ∃ db' row,
    setChargeCurve db_one_session "V" 1 5 70 None None None
    = Resolved (db', row)
    ∧ charge db' = charge db_one_session
    ∧ filter (λ r, curve_key r ≠ ("V", 5, 1)) (charge_curve db')
      = [sample "V" 1 0 60; sample "V" 1 40 200].
Proof.
  destruct (setChargeCurve_frame db_one_session "V" 1 5 70 None None None)
    as (db' & row & Hset & Hcharge & Hframe & _).
  exists db', row. split_and!; [exact Hset|exact Hcharge|].
  rewrite Hframe. reflexivity.
Defined.

(** ** The calibration query *)

Section maximum.

Lemma foldr_max_spec (x : Z) (xs : list Z) :
  foldr Z.max x xs ∈ x :: xs ∧ ∀ y, y ∈ x :: xs → y ≤ foldr Z.max x xs.
Proof.
  induction xs as [|z xs [IHin IHmax]]; simpl.
  - split; [left|]. intros y ->%list_elem_of_singleton. lia.
  - split.
    + destruct (Z.max_spec z (foldr Z.max x xs)) as [[_ ->]|[_ ->]].
      * apply elem_of_cons in IHin as [->|?]; [left|by do 2 right].
      * right; left.
    + intros y [->|[->|Hy]%elem_of_cons]%elem_of_cons.
      * specialize (IHmax x (list_elem_of_here _ _)). lia.
      * lia.
      * specialize (IHmax y (list_elem_of_further _ _ _ Hy)). lia.
Qed.

Lemma sql_max_None (xs : list Z) : sql_max xs = None ↔ xs = [].
Proof. by destruct xs. Qed.

Lemma sql_max_Some (xs : list Z) (m : Z) :
  sql_max xs = Some m ↔ m ∈ xs ∧ ∀ y, y ∈ xs → y ≤ m.
Proof.
  destruct xs as [|x xs]; simpl.
  - split; [done|]. by intros [?%elem_of_nil _].
  - destruct (foldr_max_spec x xs) as [Hin Hmax]. split.
    + by intros [= <-].
    + intros [Hm Hle]. f_equal.
      specialize (Hle _ Hin). specialize (Hmax _ Hm). lia.
Qed.

End maximum.

(** C6: for a session that the [charge] table identifies, the query
    resolves to the greatest level among the samples whose session belongs
    to the vehicle and lies at the location of the identified session, and
    to null when there is no such sample; a sample whose session lies
    elsewhere is not among them; an identifier without a session gives
    null.  No fallback takes part: without samples the answer is null,
    while the curve of a pair without any session is 1200 everywhere. *)
Theorem chargeCalibration_max_level (db : DB) (vehicle : string) (cid : Z)
    (c : DBCharge)
    (Hsession : filter (λ a, charge_id a = cid) (charge db) = [c]) :
  let counted (b : DBChargeCurve) : Prop :=
    b ∈ charge_curve db
    ∧ ∃ a, a ∈ charge db ∧ charge_id a = cc_charge_id b
           ∧ vehicle_uuid a = vehicle
           ∧ location_uuid a = location_uuid c in
  (∃ res,
      chargeCalibration db vehicle cid = Resolved res
      ∧ (res = None ↔ ∀ b, ¬ counted b)
      ∧ ∀ m, res = Some m ↔
             (∃ b, counted b ∧ level b = m)
             ∧ ∀ b, counted b → level b ≤ m)
  ∧ (∀ cid',
       filter (λ a, charge_id a = cid') (charge db) = [] →
       chargeCalibration db vehicle cid' = Resolved None)
  ∧ chargeCalibration db_two_locations "V" 1 = Resolved (Some 40)
  ∧ chargeCalibration db_two_locations "V" 2 = Resolved (Some 80)
  ∧ chargeCalibration db_zero_estimate "V" 1 = Resolved None
  ∧ ∃ curve,
      getChargeCurve db_zero_estimate "V" "M" = Resolved curve
      ∧ constant_curve (JNum (Zq 1200)) curve.
Proof.
  intros counted. split_and!; try done.
  - assert (∀ b, counted b ↔ b ∈ samples_at db vehicle (location_uuid c))
      as Hc by (intros b; by rewrite elem_of_samples_at).
    eexists. split.
    { unfold chargeCalibration, session_location. rewrite Hsession.
      reflexivity. }
    split.
    + rewrite sql_max_None. split.
      * intros H%fmap_nil_inv b Hb%Hc. rewrite H in Hb.
        by apply elem_of_nil in Hb.
      * intros H. destruct (samples_at db vehicle (location_uuid c))
          as [|b l] eqn:E; [done|].
        destruct (H b). apply Hc. left.
    + intros m. rewrite sql_max_Some, list_elem_of_fmap. split.
      * intros [(b & -> & Hb) Hmax]. split.
        -- exists b. by rewrite Hc.
        -- intros b' Hb'%Hc. by apply Hmax, list_elem_of_fmap_2.
      * intros [(b & Hb%Hc & <-) Hmax]. split; [by exists b|].
        intros y (b' & -> & Hb'%Hc)%list_elem_of_fmap. by apply Hmax.
  - intros cid' Hnone. unfold chargeCalibration, session_location.
    by rewrite Hnone.
  - eexists. split; [by apply getChargeCurve_unmeasured|].
    replace (select_avg_estimate db_zero_estimate "V" "M")
      with JNull by (symmetry; by apply jsval_eqb_eq).
    apply fill_curve_constant.
Qed.

Lemma chargeCalibration_max_level_witness :
  filter (λ a, charge_id a = 1) (charge db_two_locations)
  = [session 1 "V" "L" 90 41 0]
  ∧ ∃ res,
      chargeCalibration db_two_locations "V" 1 = Resolved res
      ∧ ∀ m, res = Some m ↔
             (∃ b, (b ∈ charge_curve db_two_locations
                    ∧ ∃ a, a ∈ charge db_two_locations
                           ∧ charge_id a = cc_charge_id b
                           ∧ vehicle_uuid a = "V"
                           ∧ location_uuid a = "L")
                   ∧ level b = m)
             ∧ ∀ b, (b ∈ charge_curve db_two_locations
                     ∧ ∃ a, a ∈ charge db_two_locations
                            ∧ charge_id a = cc_charge_id b
                            ∧ vehicle_uuid a = "V"
                            ∧ location_uuid a = "L")
                    → level b ≤ m.
Proof.
  split; [reflexivity|].
  destruct (proj1 (chargeCalibration_max_level db_two_locations "V" 1
                     (session 1 "V" "L" 90 41 0) eq_refl))
    as (res & Hres & _ & Hmax).
  exists res. split; [exact Hres|exact Hmax].
Defined.

(** * Beyond the claims: how the methods compose *)

Section join_facts.

Lemma filter_filter_elem {A} (P Q : A → Prop)
    `{∀ x, Decision (P x), ∀ x, Decision (Q x)} (l : list A) :
  (∀ x, x ∈ l → P x → Q x) → filter P (filter Q l) = filter P l.
Proof.
  induction l as [|x l IH]; intros HPQ; [done|].
  assert (filter P (filter Q l) = filter P l) as IH'
    by (apply IH; intros y Hy; apply HPQ; by right).
  destruct (decide (P x)) as [HP|HP].
  - rewrite (filter_cons_True Q) by (apply HPQ; [left|done]).
    by rewrite !filter_cons_True, IH'.
  - rewrite (filter_cons_False P x l) by done.
    rewrite (filter_cons Q). case_decide; [|done].
    by rewrite filter_cons_False.
Qed.

Lemma NoDup_fmap_filter {A B} `{EqDecision B} (f : A → B) (l : list A) a :
  NoDup (f <$> l) → a ∈ l → filter (λ y, f y = f a) l = [a].
Proof.
  induction l as [|x l IH]; [by intros _ ?%elem_of_nil|].
  rewrite fmap_cons, NoDup_cons. intros [Hx Hl] [->|Ha]%elem_of_cons.
  - rewrite filter_cons_True by done. f_equal.
    apply filter_none, Forall_forall. intros y Hy Hfy.
    apply Hx. rewrite <- Hfy. by apply list_elem_of_fmap_2.
  - rewrite filter_cons_False; [by apply IH|].
    intros Hfx. apply Hx. rewrite Hfx. by apply list_elem_of_fmap_2.
Qed.

(** The joined samples, session by session. *)
Lemma samples_at_sessions db v loc :
  samples_at db v loc
  = a ← filter (λ a, vehicle_uuid a = v ∧ location_uuid a = loc) (charge db);
    filter (λ b, charge_id a = cc_charge_id b) (charge_curve db).
Proof.
  unfold samples_at, join_charge_curve.
  induction (charge db) as [|a l IH]; [done|].
  rewrite bind_cons, filter_app, fmap_app, IH. clear IH.
  assert (∀ t : list DBChargeCurve,
            snd <$> filter (λ ab : DBCharge * DBChargeCurve,
                              vehicle_uuid ab.1 = v ∧ location_uuid ab.1 = loc)
                           (b ← t; [(a, b)])
            = if decide (vehicle_uuid a = v ∧ location_uuid a = loc)
              then t else []) as Hone.
  { induction t as [|b t IHt]; [by case_decide|].
    rewrite bind_cons. simpl app. rewrite filter_cons. simpl.
    case_decide; [by rewrite fmap_cons, IHt|done]. }
  rewrite Hone, filter_cons. case_decide; [by rewrite bind_cons|done].
Qed.

(** [getChargeCurve] reads the tables through the joined samples and the
    sessions that ended below their target. *)
Lemma getChargeCurve_ext db1 db2 v loc :
  samples_at db1 v loc = samples_at db2 v loc →
  filter (λ a, end_level a < target_level a
               ∧ vehicle_uuid a = v ∧ location_uuid a = loc) (charge db1)
  = filter (λ a, end_level a < target_level a
                 ∧ vehicle_uuid a = v ∧ location_uuid a = loc) (charge db2) →
  getChargeCurve db1 v loc = getChargeCurve db2 v loc.
Proof.
  intros Hs Hc.
  unfold getChargeCurve, select_level_median, select_avg_duration,
    select_avg_estimate, short_sessions.
  by rewrite Hs, Hc.
Qed.

Lemma getChargeCurve_no_history db v loc :
  (∀ a, a ∈ charge db → ¬ (vehicle_uuid a = v ∧ location_uuid a = loc)) →
  samples_at db v loc = []
  ∧ ∃ curve,
      getChargeCurve db v loc = Resolved curve
      ∧ constant_curve (JNum (Zq 1200)) curve.
Proof.
  intros Hno.
  assert (samples_at db v loc = []) as Hs.
  { rewrite samples_at_sessions, filter_none; [done|].
    apply Forall_forall. intros a Ha. by apply Hno. }
  split; [done|]. eexists. split; [by apply getChargeCurve_unmeasured|].
  unfold select_avg_estimate, short_sessions. rewrite sql_avg_no_rows.
  - apply fill_curve_constant.
  - intros a Ha [_ Hvl]. by apply (Hno a).
Qed.

Lemma chargeCalibration_no_samples db v cid res :
  (∀ loc, samples_at db v loc = []) →
  chargeCalibration db v cid = Resolved res → res = None.
Proof.
  intros Hs. unfold chargeCalibration.
  destruct (session_location db cid) as [[loc|]|e]; [|by intros [= <-]|done].
  rewrite Hs. by intros [= <-].
Qed.

End join_facts.

(** ** Removing a vehicle or a location *)

(** X1: once a vehicle is removed, no sample is joined to it at any
    location, its curve is the 1200 default everywhere, and its
    calibration, when the query resolves, is null. *)
Theorem removeVehicle_forgets (db : DB) (vehicle loc : string) :
  samples_at (removeVehicle db vehicle) vehicle loc = []
  ∧ (∃ curve,
       getChargeCurve (removeVehicle db vehicle) vehicle loc = Resolved curve
       ∧ constant_curve (JNum (Zq 1200)) curve)
  ∧ ∀ cid res,
      chargeCalibration (removeVehicle db vehicle) vehicle cid = Resolved res →
      res = None.
Proof.
  assert (∀ l a, a ∈ charge (removeVehicle db vehicle) →
                 ¬ (vehicle_uuid a = vehicle ∧ location_uuid a = l)) as Hno.
  { intros l a [Ha _]%list_elem_of_filter [Hv _]. done. }
  split_and!.
  - exact (proj1 (getChargeCurve_no_history _ _ _ (Hno loc))).
  - exact (proj2 (getChargeCurve_no_history _ _ _ (Hno loc))).
  - intros cid res. apply chargeCalibration_no_samples.
    intros l. exact (proj1 (getChargeCurve_no_history _ _ _ (Hno l))).
Qed.



(** X3: once a location is removed, no session and no sample of a session
    at that location is left, and every vehicle's curve there is the 1200
    default. *)
Theorem removeLocation_forgets (db : DB) (location vehicle : string) :
  (∀ a, a ∈ charge (removeLocation db location) →
        location_uuid a ≠ location)
  ∧ (∀ a b, a ∈ charge db → b ∈ charge_curve (removeLocation db location) →
            charge_id a = cc_charge_id b → location_uuid a ≠ location)
  ∧ samples_at (removeLocation db location) vehicle location = []
  ∧ ∃ curve,
      getChargeCurve (removeLocation db location) vehicle location
      = Resolved curve
      ∧ constant_curve (JNum (Zq 1200)) curve.
Proof.
  assert (∀ a, a ∈ charge (removeLocation db location) →
               location_uuid a ≠ location) as Hno
    by (by intros a [Ha _]%list_elem_of_filter).
  split_and!.
  - done.
  - intros a b Ha [Hb _]%list_elem_of_filter Hid Hloc.
    apply Hb, Exists_exists. by exists a.
  - apply (getChargeCurve_no_history (removeLocation db location)).
    intros a Ha [_ Hl]. by apply (Hno a).
  - apply (getChargeCurve_no_history (removeLocation db location)).
    intros a Ha [_ Hl]. by apply (Hno a).
Qed.

(** X4: when [charge_id] identifies a session, removing one location
    leaves the joined samples and the curve at every other location as
    they were. *)
Theorem removeLocation_frame (db : DB) (location other vehicle : string)
    (Hunique : session_ids_unique db) (Hother : other ≠ location) :
  samples_at (removeLocation db location) vehicle other
  = samples_at db vehicle other
  ∧ getChargeCurve (removeLocation db location) vehicle other
    = getChargeCurve db vehicle other.
Proof.
  assert (∀ a a', a ∈ charge db → a' ∈ charge db →
                  charge_id a = charge_id a' → a = a') as Hinj.
  { intros a a' Ha Ha' Hid.
    pose proof (NoDup_fmap_filter charge_id (charge db) a Hunique Ha) as Hf.
    assert (a' ∈ filter (λ y, charge_id y = charge_id a) (charge db)) as Hin
      by (by apply list_elem_of_filter).
    rewrite Hf in Hin. by apply list_elem_of_singleton in Hin. }
  assert (samples_at (removeLocation db location) vehicle other
          = samples_at db vehicle other) as Hs.
  { rewrite !samples_at_sessions. cbn [removeLocation charge charge_curve].
    rewrite list_filter_filter_l by (intros a [_ ->]; done).
    apply Forall_bind_ext, Forall_forall.
    intros a [[_ Hl] Ha]%list_elem_of_filter.
    apply filter_filter_elem. intros b Hb Hid.
    intros (a' & Ha' & Hid' & Hl')%Exists_exists.
    assert (a = a') as <- by (apply Hinj; [done..|congruence]).
    congruence. }
  split; [done|]. apply getChargeCurve_ext; [done|].
  cbn [removeLocation charge].
  apply list_filter_filter_l. intros a (_ & _ & ->). done.
Qed.

Lemma removeLocation_frame_witness :
  getChargeCurve (removeLocation db_two_locations "M") "V" "L"
  = getChargeCurve db_two_locations "V" "L".
Proof.
  refine (proj2 (removeLocation_frame db_two_locations "M" "L" "V" _ _)).
  - unfold session_ids_unique. simpl. repeat constructor;
      rewrite ?elem_of_cons, ?elem_of_nil; intros H;
      repeat (destruct H as [H|H]; [discriminate H|]); exact H.
  - discriminate.
Defined.

(** ** Writing a sample, then reading *)

Section write_then_read.

Context (db : DB) (vehicle : string) (cid lv dur : Z)
        (temp used added : option Z).

Let x := make_input vehicle cid lv dur temp used added.
Let db' := after_setChargeCurve db vehicle cid lv dur temp used added.

Lemma after_setChargeCurve_tables :
  charge db' = charge db
  ∧ charge_curve db' = (insert_on_conflict x (charge_curve db)).1.
Proof.
  unfold db', after_setChargeCurve. by rewrite setChargeCurve_resolved.
Qed.

Lemma insert_on_conflict_fresh (t : list DBChargeCurve) :
  curve_key x ∉ curve_key <$> t → (insert_on_conflict x t).1 = t ++ [x].
Proof.
  induction t as [|r t IH]; [done|].
  rewrite fmap_cons, not_elem_of_cons. intros [Hr Ht]. simpl.
  rewrite decide_False by done.
  specialize (IH Ht). destruct (insert_on_conflict x t) as [t' row].
  simpl in *. by rewrite IH.
Qed.

(** The samples of a session other than [cid] are untouched by the write. *)
Lemma session_samples_other (c : Z) :
  c ≠ cid →
  filter (λ b, c = cc_charge_id b) (charge_curve db')
  = filter (λ b, c = cc_charge_id b) (charge_curve db).
Proof.
  intros Hc. rewrite (proj2 after_setChargeCurve_tables).
  apply insert_on_conflict_frame. intros r -> [= _ _ Hk]. done.
Qed.

Lemma samples_at_dangling v loc :
  (∀ a, a ∈ charge db → charge_id a ≠ cid) →
  samples_at db' v loc = samples_at db v loc.
Proof.
  intros Hno. rewrite !samples_at_sessions.
  rewrite (proj1 after_setChargeCurve_tables).
  apply Forall_bind_ext, Forall_forall.
  intros a [_ Ha]%list_elem_of_filter.
  apply session_samples_other. by apply Hno.
Qed.

Lemma written_sample_joined a :
  a ∈ charge db → charge_id a = cid →
  x ∈ samples_at db' (vehicle_uuid a) (location_uuid a).
Proof.
  intros Ha Hid. apply elem_of_samples_at. split.
  - rewrite (proj2 after_setChargeCurve_tables).
    apply insert_on_conflict_elem.
  - exists a. by rewrite (proj1 after_setChargeCurve_tables).
Qed.

Lemma first_sample_joined a :
  session_ids_unique db → a ∈ charge db → charge_id a = cid →
  samples_at db (vehicle_uuid a) (location_uuid a) = [] →
  samples_at db' (vehicle_uuid a) (location_uuid a) = [x].
Proof.
  intros Hunique Ha Hid Hnone.
  set (P := λ a' : DBCharge,
              vehicle_uuid a' = vehicle_uuid a
              ∧ location_uuid a' = location_uuid a).
  assert (∀ a', a' ∈ filter P (charge db) →
                filter (λ b, charge_id a' = cc_charge_id b) (charge_curve db)
                = []) as Hempty.
  { intros a' Ha'. rewrite samples_at_sessions in Hnone.
    destruct (filter (λ b, charge_id a' = cc_charge_id b) (charge_curve db))
      as [|b t] eqn:E; [done|].
    assert (b ∈ filter P (charge db)
                ≫= λ a0, filter (λ b, charge_id a0 = cc_charge_id b)
                                (charge_curve db)) as Hb.
    { apply list_elem_of_bind. exists a'. split; [|done]. rewrite E. left. }
    fold P in Hnone. rewrite Hnone in Hb. by apply elem_of_nil in Hb. }
  assert (filter (λ b, cid = cc_charge_id b) (charge_curve db') = [x])
    as Hnew.
  { rewrite (proj2 after_setChargeCurve_tables), insert_on_conflict_fresh.
    - rewrite filter_app, filter_cons_True, filter_nil by done.
      rewrite <- Hid, Hempty; [done|]. by apply list_elem_of_filter.
    - intros (b & Hk & Hb)%list_elem_of_fmap.
      assert (b ∈ filter (λ b, charge_id a = cc_charge_id b) (charge_curve db))
        as Hin.
      { apply list_elem_of_filter. split; [|done].
        rewrite Hid. by injection Hk. }
      rewrite Hempty in Hin; [by apply elem_of_nil in Hin|].
      by apply list_elem_of_filter. }
  rewrite samples_at_sessions, (proj1 after_setChargeCurve_tables). fold P.
  assert (filter P (charge db) ≫=
            (λ a', filter (λ b, charge_id a' = cc_charge_id b)
                          (charge_curve db'))
          = (λ _, x) <$> filter (λ a', charge_id a' = charge_id a)
                                (filter P (charge db))) as ->.
  { pose proof Hempty as Hall. revert Hall.
    induction (filter P (charge db)) as [|a' l IH]; intros Hall; [done|].
    rewrite bind_cons, filter_cons, IH
      by (intros a'' Ha''; apply Hall; by right).
    case_decide as Hc.
    - by rewrite Hc, Hid, Hnew.
    - rewrite session_samples_other by congruence.
      rewrite Hall; [done|left]. }
  rewrite list_filter_filter.
  rewrite (list_filter_iff _ (λ a', P a' ∧ charge_id a' = charge_id a))
    by (intros a'; tauto).
  rewrite <- list_filter_filter, NoDup_fmap_filter by done.
  by rewrite filter_cons_True.
Qed.

End write_then_read.

(** X5: the first sample of a vehicle at a location decides the whole
    curve: when [charge_id] identifies a session and the vehicle of the
    session has no sample at the location of the session, then after a
    write for that session, whatever vehicle the call names, the joined
    samples are that one row and the curve is its duration on all of
    0..100. *)
Theorem first_sample_sets_curve (db : DB) (a : DBCharge) (vehicle : string)
    (lv dur : Z) (temp used added : option Z)
    (Hunique : session_ids_unique db)
    (Hsession : a ∈ charge db)
    (Hnone : samples_at db (vehicle_uuid a) (location_uuid a) = []) :
  let db' :=
    after_setChargeCurve db vehicle (charge_id a) lv dur temp used added in
  samples_at db' (vehicle_uuid a) (location_uuid a)
  = [make_input vehicle (charge_id a) lv dur temp used added]
  ∧ ∃ curve,
      getChargeCurve db' (vehicle_uuid a) (location_uuid a) = Resolved curve
      ∧ constant_curve (JNum (Zq dur)) curve.
Proof.
  intros db'.
  pose proof (first_sample_joined db vehicle (charge_id a) lv dur
                temp used added a Hunique Hsession eq_refl Hnone) as Hs.
  fold db' in Hs. split; [done|].
  eexists. split.
  - apply (getChargeCurve_measured db' _ _ lv []). by rewrite Hs.
  - unfold median_at. rewrite Hs. unfold durations_at.
    rewrite filter_cons_True by done. apply fill_curve_constant.
Qed.

Lemma first_sample_sets_curve_witness :
  ∃ curve,
    getChargeCurve
      (after_setChargeCurve db_short_session "V" 1 37 240 None None None)
      "V" "L" = Resolved curve
    ∧ constant_curve (JNum (Zq 240)) curve.
Proof.
  assert (session_ids_unique db_short_session) as Hu.
  { unfold session_ids_unique. simpl. apply NoDup_singleton. }
  assert (session 1 "V" "L" 90 60 30 ∈ charge db_short_session) as Ha
    by (simpl; left).
  exact (proj2 (first_sample_sets_curve db_short_session
                  (session 1 "V" "L" 90 60 30) "V" 37 240 None None None
                  Hu Ha eq_refl)).
Defined.

(** X6: after a sample at level [lv] is written for a session that the
    [charge] table identifies, the calibration of the session's vehicle
    for that session is a level, and it is at least [lv]. *)
Theorem calibration_after_sample (db : DB) (a : DBCharge) (vehicle : string)
    (cid lv dur : Z) (temp used added : option Z)
    (Hsession : filter (λ a', charge_id a' = cid) (charge db) = [a]) :
  ∃ m,
    chargeCalibration
      (after_setChargeCurve db vehicle cid lv dur temp used added)
      (vehicle_uuid a) cid = Resolved (Some m)
    ∧ lv ≤ m.
Proof.
  set (db' := after_setChargeCurve db vehicle cid lv dur temp used added).
  assert (a ∈ charge db ∧ charge_id a = cid) as [Ha Hid].
  { assert (a ∈ filter (λ a', charge_id a' = cid) (charge db)) as Hin
      by (rewrite Hsession; left).
    apply list_elem_of_filter in Hin. tauto. }
  pose proof (written_sample_joined db vehicle cid lv dur temp used added
                a Ha Hid) as Hx.
  fold db' in Hx.
  assert (chargeCalibration db' (vehicle_uuid a) cid
          = Resolved (sql_max (level <$> samples_at db' (vehicle_uuid a)
                                                    (location_uuid a))))
    as ->.
  { unfold chargeCalibration, session_location.
    unfold db'.
    rewrite (proj1 (after_setChargeCurve_tables db vehicle cid lv dur
                      temp used added)).
    by rewrite Hsession. }
  destruct (sql_max _) as [m|] eqn:Hm.
  - exists m. split; [done|]. apply sql_max_Some in Hm as [_ Hmax].
    apply (Hmax lv). by apply (list_elem_of_fmap_2 level) in Hx.
  - apply sql_max_None, fmap_nil_inv in Hm. rewrite Hm in Hx.
    by apply elem_of_nil in Hx.
Qed.

Lemma calibration_after_sample_witness :
  ∃ m,
    chargeCalibration
      (after_setChargeCurve db_two_locations "V" 1 63 90 None None None)
      "V" 1 = Resolved (Some m)
    ∧ 63 ≤ m.
Proof.
  exact (calibration_after_sample db_two_locations
           (session 1 "V" "L" 90 41 0) "V" 1 63 90 None None None eq_refl).
Defined.

(** X7: a sample written under a [charge_id] that no session has is
    stored but joined to nothing: every curve and every calibration is as
    before the write. *)
Theorem sample_without_session_unseen (db : DB) (vehicle : string)
    (cid lv dur : Z) (temp used added : option Z)
    (Hnone : ∀ a, a ∈ charge db → charge_id a ≠ cid) :
  let db' := after_setChargeCurve db vehicle cid lv dur temp used added in
  make_input vehicle cid lv dur temp used added ∈ charge_curve db'
  ∧ (∀ v loc, getChargeCurve db' v loc = getChargeCurve db v loc)
  ∧ ∀ v c, chargeCalibration db' v c = chargeCalibration db v c.
Proof.
  intros db'.
  pose proof (after_setChargeCurve_tables db vehicle cid lv dur
                temp used added) as [Hcharge Hcurve].
  fold db' in Hcharge, Hcurve.
  assert (∀ v loc, samples_at db' v loc = samples_at db v loc) as Hs
    by (intros v loc; by apply samples_at_dangling).
  split_and!.
  - rewrite Hcurve. apply insert_on_conflict_elem.
  - intros v loc. apply getChargeCurve_ext; [done|by rewrite Hcharge].
  - intros v c. unfold chargeCalibration, session_location.
    rewrite Hcharge.
    destruct (location_uuid <$> filter _ (charge db)) as [|l [|? ?]];
      try done.
    by rewrite Hs.
Qed.

Lemma sample_without_session_unseen_witness :
  (∀ a, a ∈ charge db_two_locations → charge_id a ≠ 9)
  ∧ ∀ v loc,
      getChargeCurve
        (after_setChargeCurve db_two_locations "V" 9 63 90 None None None)
        v loc
      = getChargeCurve db_two_locations v loc.
Proof.
  assert (∀ a, a ∈ charge db_two_locations → charge_id a ≠ 9) as Hnone.
  { intros a Ha. simpl in Ha. rewrite !elem_of_cons, elem_of_nil in Ha.
    destruct Ha as [->|[->|[]]]; discriminate. }
  split; [exact Hnone|].
  exact (proj1 (proj2 (sample_without_session_unseen db_two_locations
                         "V" 9 63 90 None None None Hnone))).
Defined.

(** X8: writing the same sample again changes nothing: the table after
    the second identical call is the table after the first, and the call
    returns the same row. *)
Theorem setChargeCurve_idempotent (db : DB) (vehicle : string)
    (cid lv dur : Z) (temp used added : option Z) :
  let db' := after_setChargeCurve db vehicle cid lv dur temp used added in
  ∃ row,
    setChargeCurve db vehicle cid lv dur temp used added = Resolved (db', row)
    ∧ setChargeCurve db' vehicle cid lv dur temp used added
      = Resolved (db', row).
Proof.
  intros db'. eexists. split.
  - unfold db', after_setChargeCurve. by rewrite setChargeCurve_resolved.
  - rewrite setChargeCurve_resolved. f_equal. f_equal.
    pose proof (after_setChargeCurve_tables db vehicle cid lv dur
                  temp used added) as [Hcharge Hcurve].
    fold db' in Hcharge, Hcurve.
    destruct db' as [c t]. simpl in *. subst c. f_equal.
    rewrite Hcurve. clear.
    set (x := make_input vehicle cid lv dur temp used added).
    induction (charge_curve db) as [|r t' IH]; simpl.
    + rewrite decide_True by done. by rewrite do_update_excluded.
    + case_decide as Hk; simpl.
      * rewrite do_update_excluded by done.
        rewrite decide_True by done. by rewrite do_update_excluded.
      * destruct (insert_on_conflict x t') as [t'' row] eqn:E. simpl in *.
        rewrite decide_False by done.
        destruct (insert_on_conflict x t'') as [t3 row3]. simpl in *.
        by rewrite IH.
Qed.

(** ** Bounds of the curve *)

Section bounds.

Context (lo hi : Z).

Lemma Zq_mid_bounds (a b : Z) :
  lo ≤ a ≤ hi → lo ≤ b ≤ hi →
  (Zq lo <= Q2Qc ((inject_Z a + inject_Z b) / 2) <= Zq hi)%Qc.
Proof.
  intros Ha Hb. unfold Qcle, Zq, Q2Qc. cbn [this].
  rewrite !Qred_correct.
  unfold Qle, Qdiv, Qmult, Qplus, Qinv, inject_Z. simpl. lia.
Qed.

Lemma Zq_bounds (a : Z) : lo ≤ a ≤ hi → (Zq lo <= Zq a <= Zq hi)%Qc.
Proof.
  intros Ha. unfold Qcle, Zq, Q2Qc. cbn [this].
  rewrite !Qred_correct. rewrite <- !Zle_Qle. lia.
Qed.

Lemma median_bounds (xs : list Z) :
  xs ≠ [] → Forall (λ d, lo ≤ d ≤ hi) xs →
  ∃ q, median xs = JNum q ∧ (Zq lo <= q <= Zq hi)%Qc.
Proof.
  intros Hne Hall. unfold median.
  assert (Forall (λ d, lo ≤ d ≤ hi) (sort_asc xs)) as Hs
    by (by rewrite sort_asc_perm).
  assert (∀ k, (k < length (sort_asc xs))%nat →
               lo ≤ nth k (sort_asc xs) 0 ≤ hi) as Hnth.
  { intros k Hk. eapply Forall_forall in Hs; [exact Hs|].
    apply list_elem_of_In, nth_In, Hk. }
  destruct (length (sort_asc xs)) as [|m] eqn:Hlen.
  { rewrite sort_asc_length in Hlen. by destruct xs. }
  assert (Nat.div2 m ≤ m)%nat as Hdiv
    by (apply Nat.div2_decr; lia).
  destruct (Nat.even m) eqn:Heven.
  - eexists. split; [done|]. apply Zq_bounds, Hnth. lia.
  - eexists. split; [done|].
    assert (S (Nat.div2 m) < S m)%nat as Hlt.
    { destruct m as [|m]; [done|].
      pose proof (Nat.div2_decr (S m) (S m)). 
      assert (Nat.div2 (S m) < S m)%nat by (apply Nat.lt_div2; lia). lia. }
    apply Zq_mid_bounds; apply Hnth; lia.
Qed.

End bounds.

(** X9: the curve stays within the sampled durations: when the vehicle has
    samples at the location and every one of their durations lies between
    [lo] and [hi], every value of the curve lies between [lo] and [hi]; in
    particular non-negative durations give a non-negative curve. *)
Theorem curve_within_durations (db : DB) (v loc : string) (lo hi : Z)
    (Hsamples : samples_at db v loc ≠ [])
    (Hrange : ∀ b, b ∈ samples_at db v loc → lo ≤ duration b ≤ hi) :
  ∃ curve,
    getChargeCurve db v loc = Resolved curve
    ∧ ∀ lv, 0 ≤ lv ≤ 100 →
        ∃ q, curve !! lv = Some (JNum q) ∧ (Zq lo <= q <= Zq hi)%Qc.
Proof.
  destruct (group_levels (level <$> samples_at db v loc)) as [|g0 gs] eqn:Hg.
  { by apply group_levels_nil, fmap_nil_inv in Hg. }
  pose proof (group_levels_sorted (level <$> samples_at db v loc)) as Hs.
  rewrite Hg in Hs. apply StronglySorted_inv in Hs as [Hs _].
  apply (fill_curve_measured_sorted db v loc) in Hs.
  eexists. split; [by apply getChargeCurve_measured|].
  intros lv Hlv. rewrite fill_curve_lookup, decide_True by done.
  destruct (step_value_measured db v loc g0 gs lv Hg) as (L & HL & -> & _).
  destruct (median_bounds lo hi (durations_at (samples_at db v loc) L))
    as (q & Hq & Hb).
  - by apply durations_at_measured.
  - apply Forall_forall. intros d (b & -> & [_ Hb]%list_elem_of_filter)
      %list_elem_of_fmap. by apply Hrange.
  - exists q. by split; [unfold median_at; rewrite Hq|].
Qed.

Lemma curve_within_durations_witness :
  ∃ curve,
    getChargeCurve db_outlier "V" "L" = Resolved curve
    ∧ ∀ lv, 0 ≤ lv ≤ 100 →
        ∃ q, curve !! lv = Some (JNum q) ∧ (Zq 10 <= q <= Zq 1000)%Qc.
Proof.
  apply (curve_within_durations db_outlier "V" "L" 10 1000).
  - vm_compute. discriminate.
  - intros b Hb.
    apply (list_elem_of_fmap_2 duration) in Hb.
    change (duration <$> samples_at db_outlier "V" "L")
      with [10; 1000; 20] in Hb.
    rewrite !elem_of_cons, elem_of_nil in Hb. lia.
Defined.

(** ** Averages that are exactly 0 *)

Lemma constant_curve_seed seed seed' curve :
  constant_curve seed curve → constant_curve seed' curve → seed = seed'.
Proof.
  intros H H'. specialize (H 0). rewrite (H' 0) in H.
  destruct (decide (0 ≤ 0 ≤ 100)); [congruence|lia].
Qed.

Lemma jtext_neq (a b : Z) : a ≠ b → JText (Zq a) ≠ JText (Zq b).
Proof.
  intros Hab H.
  apply (f_equal (λ v, match v with JText q => q | _ => Zq 0 end)) in H.
  apply Q2Qc_eq_iff in H. unfold Qeq in H. simpl in H. lia.
Qed.

Lemma seconds_per_level_zero (a : DBCharge) :
  estimate a = 0 → (seconds_per_level a == 0)%Q.
Proof.
  intros H. unfold seconds_per_level. rewrite H.
  unfold Qdiv. rewrite Qmult_0_r. apply Qmult_0_l.
Qed.

(** C10, as stated, fails.  The session-derived average of
    [db_zero_estimate] is exactly 0; it reaches the [||] chain as text,
    which is truthy, so the curve is that average at every level and not
    1200.  Likewise two samples of duration 0 that arrive after the
    per-level query make the whole-sample average exactly 0, and the curve
    is that average and not the session-derived 60. *)
Lemma zero_average_not_skipped :
  select_level_median db_zero_estimate "V" "L" = []
  ∧ select_avg_duration db_zero_estimate "V" "L" = JNull
  ∧ select_avg_estimate db_zero_estimate "V" "L" = JText (Zq 0)
  ∧ (∃ curve,
       getChargeCurve db_zero_estimate "V" "L" = Resolved curve
       ∧ constant_curve (JText (Zq 0)) curve
       ∧ ¬ constant_curve (JNum (Zq 1200)) curve)
  ∧ select_level_median db_short_session "V" "L" = []
  ∧ select_avg_duration db_zero_samples "V" "L" = JText (Zq 0)
  ∧ select_avg_estimate db_zero_samples "V" "L" = JText (Zq 60)
  ∧ ∃ curve,
      getChargeCurve_between db_short_session db_zero_samples
                             db_zero_samples "V" "L"
      = Resolved curve
      ∧ constant_curve (JText (Zq 0)) curve
      ∧ ¬ constant_curve (JText (Zq 60)) curve.
Proof.
  assert (select_avg_estimate db_zero_estimate "V" "L" = JText (Zq 0))
    as He by (by apply jsval_eqb_eq).
  assert (select_avg_duration db_zero_samples "V" "L" = JText (Zq 0))
    as Hd by (by apply jsval_eqb_eq).
  assert (select_avg_estimate db_zero_samples "V" "L" = JText (Zq 60))
    as He' by (by apply jsval_eqb_eq).
  split_and!; try done.
  - eexists. split; [by apply getChargeCurve_unmeasured|].
    rewrite He. split; [apply fill_curve_constant|].
    intros Hc.
    by pose proof (constant_curve_seed _ _ _ (fill_curve_constant _) Hc).
  - eexists.
    split; [by apply (getChargeCurve_between_fallback db_short_session)|].
    rewrite Hd. split; [apply fill_curve_constant|].
    intros Hc.
    pose proof (constant_curve_seed _ _ _ (fill_curve_constant _) Hc) as H.
    by apply (jtext_neq 0 60) in H.
Qed.

(** C10 (amended): an average that is exactly 0 is kept like any other
    average, because it reaches the [||] chain as non-empty text; only a
    null average is passed over.  With no per-level row, a whole-sample
    average over samples that all have duration 0 is the curve, and
    without a whole-sample average a session-derived average over
    sessions that all have an estimate of 0 is the curve; the latter is
    what a call answers during which the tables stay as they are.  When
    the samples of duration 0 are there for the per-level query, the curve
    is the number 0 at every level, from the medians. *)
Theorem zero_average_kept (db1 db2 db3 : DB) (v loc : string)
    (Hnone : select_level_median db1 v loc = []) :
  (samples_at db2 v loc ≠ [] →
   Forall (λ b, duration b = 0) (samples_at db2 v loc) →
   select_avg_duration db2 v loc = JText (Zq 0)
   ∧ ∃ curve,
       getChargeCurve_between db1 db2 db3 v loc = Resolved curve
       ∧ constant_curve (JText (Zq 0)) curve)
  ∧ (samples_at db2 v loc = [] →
     short_sessions db3 v loc ≠ [] →
     Forall (λ a, estimate a = 0) (short_sessions db3 v loc) →
     select_avg_estimate db3 v loc = JText (Zq 0)
     ∧ ∃ curve,
         getChargeCurve_between db1 db2 db3 v loc = Resolved curve
         ∧ constant_curve (JText (Zq 0)) curve)
  ∧ (short_sessions db1 v loc ≠ [] →
     Forall (λ a, estimate a = 0) (short_sessions db1 v loc) →
     ∃ curve,
       getChargeCurve db1 v loc = Resolved curve
       ∧ constant_curve (JText (Zq 0)) curve)
  ∧ (∀ db,
       samples_at db v loc ≠ [] →
       Forall (λ b, duration b = 0) (samples_at db v loc) →
       ∃ curve,
         getChargeCurve db v loc = Resolved curve
         ∧ constant_curve (JNum (Zq 0)) curve).
Proof.
  assert (∀ d, short_sessions d v loc ≠ [] →
               Forall (λ a, estimate a = 0) (short_sessions d v loc) →
               select_avg_estimate d v loc = JText (Zq 0)) as Hest.
  { intros d Hrows Hzero. unfold select_avg_estimate.
    rewrite (sql_avg_rows _ _ Hrows). f_equal. apply mean_zero.
    apply Forall_fmap. eapply Forall_impl; [exact Hzero|].
    intros a. apply seconds_per_level_zero. }
  split_and!.
  - intros Hrows Hzero.
    assert (select_avg_duration db2 v loc = JText (Zq 0)) as Hd.
    { unfold select_avg_duration. rewrite (sql_avg_rows _ _ Hrows).
      f_equal. apply mean_zero. apply Forall_fmap.
      eapply Forall_impl; [exact Hzero|]. intros b Hb. simpl.
      by rewrite Hb. }
    split; [done|]. eexists.
    split; [by apply getChargeCurve_between_fallback|].
    rewrite Hd. apply fill_curve_constant.
  - intros Hno Hrows Hzero. split; [by apply Hest|]. eexists.
    split; [by apply getChargeCurve_between_fallback|].
    unfold select_avg_duration. rewrite Hno, Hest by done.
    apply fill_curve_constant.
  - intros Hrows Hzero. eexists.
    split; [by apply (getChargeCurve_between_fallback db1 db1 db1)|].
    rewrite (select_avg_duration_null _ _ _ Hnone), Hest by done.
    apply fill_curve_constant.
  - intros db Hrows Hzero.
    destruct (group_levels (level <$> samples_at db v loc))
      as [|g0 gs] eqn:Hg.
    { by apply group_levels_nil, fmap_nil_inv in Hg. }
    pose proof (group_levels_sorted (level <$> samples_at db v loc)) as Hs.
    rewrite Hg in Hs. apply StronglySorted_inv in Hs as [Hs _].
    apply (fill_curve_measured_sorted db v loc) in Hs.
    eexists. split; [by apply getChargeCurve_measured|].
    intros lv. rewrite fill_curve_lookup by done.
    destruct (decide (0 ≤ lv ≤ 100)) as [Hlv|Hlv]; [|done]. f_equal.
    destruct (step_value_measured db v loc g0 gs lv Hg) as (L & HL & -> & _).
    destruct (median_bounds 0 0 (durations_at (samples_at db v loc) L))
      as (q & Hq & Hlo & Hhi).
    + by apply durations_at_measured.
    + apply Forall_forall.
      intros d (b & -> & [_ Hb]%list_elem_of_filter)%list_elem_of_fmap.
      eapply Forall_forall in Hzero; [|exact Hb]. simpl in Hzero. lia.
    + unfold median_at. rewrite Hq. f_equal. by apply Qcle_antisym.
Qed.

Lemma zero_average_kept_witness :
  select_level_median db_zero_estimate "V" "L" = []
  ∧ short_sessions db_zero_estimate "V" "L" ≠ []
  ∧ Forall (λ a, estimate a = 0) (short_sessions db_zero_estimate "V" "L")
  ∧ ∃ curve,
      getChargeCurve db_zero_estimate "V" "L" = Resolved curve
      ∧ constant_curve (JText (Zq 0)) curve.
Proof.
  assert (short_sessions db_zero_estimate "V" "L" ≠ []) as Hrows
    by (vm_compute; discriminate).
  assert (Forall (λ a, estimate a = 0)
                 (short_sessions db_zero_estimate "V" "L")) as Hzero
    by (by repeat constructor).
  split; [reflexivity|]. split; [exact Hrows|]. split; [exact Hzero|].
  exact (proj1 (proj2 (proj2
    (zero_average_kept db_zero_estimate db_zero_estimate db_zero_estimate
       "V" "L" eq_refl))) Hrows Hzero).
Defined.

(** ** Building and running a filtered query *)

Section query_helper.

Context {V C : Type}.
Implicit Types (fields : list (helper_field V C)).

Lemma queryHelper_foldl fields (values : list (jsarg V)) (texts : list C) :
  foldl queryHelper_step (values, texts) fields
  = (values ++ (field_value <$> fields), texts ++ omap field_text fields).
Proof.
  revert values texts. induction fields as [|f fields IH]; intros values texts.
  - by rewrite !app_nil_r.
  - simpl foldl. destruct f as [v|v text]; simpl queryHelper_step.
    + rewrite IH, fmap_cons, <- app_assoc. done.
    + rewrite IH, fmap_cons, <- app_assoc. f_equal.
      destruct v, text; simpl; by rewrite <- ?app_assoc, ?app_nil_r.
Qed.

End query_helper.

(** X10: [queryHelper] keeps the values in step with the numbered
    placeholders: the value array has one entry per field, the i-th entry
    being the value of the i-th field whether it is [undefined] or not,
    while the texts are those of the fields whose value is not
    [undefined], in the order of the fields; there is no text exactly when
    no field has both a value and a text. *)
Theorem queryHelper_positions {V C} (fields : list (helper_field V C)) :
  length (queryHelper fields).1 = length fields
  ∧ (∀ i, (queryHelper fields).1 !! i = field_value <$> fields !! i)
  ∧ (queryHelper fields).2 = omap field_text fields
  ∧ (∀ t, t ∈ (queryHelper fields).2 ↔
          ∃ v, WithText v (Some t) ∈ fields ∧ v ≠ Undefined)
  ∧ ((queryHelper fields).2 = [] ↔
     ∀ v t, WithText v (Some t) ∈ fields → v = Undefined).
Proof.
  unfold queryHelper. rewrite queryHelper_foldl. simpl.
  assert (∀ t, t ∈ omap field_text fields ↔
               ∃ v, WithText v (Some t) ∈ fields ∧ v ≠ Undefined) as Hin.
  { intros t. rewrite list_elem_of_omap. split.
    - intros ([v|v text] & Hf & Ht); [done|].
      exists v. destruct v; simpl in Ht; [done| |]; by subst.
    - intros (v & Hf & Hv). exists (WithText v (Some t)).
      split; [done|]. by destruct v. }
  split_and!.
  - by rewrite length_fmap.
  - intros i. by rewrite list_lookup_fmap.
  - done.
  - done.
  - split.
    + intros Hnil v t Hf.
      assert (v ≠ Undefined → False) as Hv.
      { intros Hv.
        assert (t ∈ omap field_text fields) as Ht by (apply Hin; eauto).
        rewrite Hnil in Ht. by apply elem_of_nil in Ht. }
      destruct v; [done| |]; by destruct Hv.
    + intros Hall. destruct (omap field_text fields) as [|t l] eqn:E; [done|].
      assert (t ∈ t :: l) as Ht by left.
      apply Hin in Ht as (v & Hf & Hv). by specialize (Hall v t Hf).
Qed.

Example getVehicles_sql_both :
  getVehicles_sql [VehicleIs; AccountIs]
  = "SELECT * FROM vehicle  WHERE vehicle_uuid = $1 AND account_uuid = $2  ORDER BY name, vehicle_uuid;".
Proof. reflexivity. Qed.

Section vehicles.

Context {D : Type} (order_by : list (DBVehicle D) → list (DBVehicle D)).
Context (table : list (DBVehicle D)).
Hypothesis order_by_perm : ∀ l, order_by l ≡ₚ l.

(** The rows that the statement of [getVehicles] selects for one id. *)
Lemma getVehicles_rows account_uuid vid :
  getVehicles order_by table account_uuid (Value vid)
  = order_by (filter (λ row, veh_vehicle_uuid row = vid
                             ∧ account_allows account_uuid row) table).
Proof.
  unfold getVehicles, queryHelper. rewrite queryHelper_foldl. f_equal.
  apply list_filter_iff. intros row.
  destruct account_uuid as [| |acc]; simpl;
    rewrite ?Forall_cons, ?Forall_nil; simpl; split.
  - intros [[= ->] _]. done.
  - intros [-> _]. done.
  - intros (_ & [=] & _).
  - intros [_ []].
  - intros ([= ->] & [= ->] & _). done.
  - intros [-> ->]. done.
Qed.

Lemma order_by_nil : order_by [] = [].
Proof. apply Permutation_nil_r. by rewrite order_by_perm. Qed.

Lemma order_by_singleton row : order_by [row] = [row].
Proof. apply Permutation_singleton_r. by rewrite order_by_perm. Qed.

Lemma vehicle_rows_at_most_one account_uuid vid :
  NoDup (veh_vehicle_uuid <$> table) →
  filter (λ row, veh_vehicle_uuid row = vid
                 ∧ account_allows account_uuid row) table = []
  ∨ ∃ row, filter (λ row, veh_vehicle_uuid row = vid
                          ∧ account_allows account_uuid row) table = [row].
Proof.
  intros Hunique.
  rewrite (list_filter_iff _ (λ row, account_allows account_uuid row
                                     ∧ veh_vehicle_uuid row = vid))
    by (intros row; tauto).
  rewrite <- list_filter_filter.
  destruct (filter (λ row, veh_vehicle_uuid row = vid) table)
    as [|a l] eqn:E; [by left|].
  assert (a ∈ table ∧ veh_vehicle_uuid a = vid) as [Ha Hid].
  { assert (a ∈ filter (λ row, veh_vehicle_uuid row = vid) table) as Hin
      by (rewrite E; left).
    apply list_elem_of_filter in Hin. tauto. }
  pose proof (NoDup_fmap_filter veh_vehicle_uuid table a Hunique Ha) as Hone.
  rewrite Hid, E in Hone. injection Hone as ->.
  rewrite filter_cons. case_decide; [right; by exists a|by left].
Qed.

End vehicles.

(** X11: [getVehicle] on a table whose [vehicle_uuid] is unique: it finds
    a row exactly when the table has a row with that id that the account
    filter lets through, where an [undefined] account lets every row
    through, an account lets its own rows through and a [null] account
    lets none through; otherwise the id is reported as unknown, also when
    the vehicle exists but belongs to another account; the length
    assertion never fails. *)
Theorem getVehicle_scoped {D} (order_by : list (DBVehicle D) → list (DBVehicle D))
    (table : list (DBVehicle D)) (account_uuid : jsarg string) (vid : string)
    (Hperm : ∀ l, order_by l ≡ₚ l)
    (Hunique : NoDup (veh_vehicle_uuid <$> table)) :
  (∀ row,
      getVehicle order_by table account_uuid vid = Found row ↔
      row ∈ table ∧ veh_vehicle_uuid row = vid
      ∧ account_allows account_uuid row)
  ∧ (getVehicle order_by table account_uuid vid = Thrown (UnknownVehicle vid) ↔
     ∀ row, row ∈ table → veh_vehicle_uuid row = vid →
            ¬ account_allows account_uuid row)
  ∧ getVehicle order_by table account_uuid vid ≠ Thrown LengthAssertion.
Proof.
  unfold getVehicle. rewrite getVehicles_rows.
  set (Q := λ row : DBVehicle D,
              veh_vehicle_uuid row = vid ∧ account_allows account_uuid row).
  assert (∀ row, row ∈ filter Q table ↔
                 row ∈ table ∧ veh_vehicle_uuid row = vid
                 ∧ account_allows account_uuid row) as Hin
    by (intros row; rewrite list_elem_of_filter; unfold Q; tauto).
  destruct (vehicle_rows_at_most_one table account_uuid vid Hunique)
    as [Hnil|[a Hone]]; fold Q in Hnil || fold Q in Hone.
  - rewrite Hnil in *. rewrite (order_by_nil order_by Hperm).
    split_and!; [|split; [|done]|done].
    + intros row. rewrite <- Hin. split; [done|by intros ?%elem_of_nil].
    + intros _ row Hrow Hid Hacc.
      by apply (elem_of_nil row), Hin.
  - rewrite Hone in *. rewrite (order_by_singleton order_by Hperm).
    split_and!; [|split; [done|]|done].
    + intros row. rewrite <- Hin, list_elem_of_singleton.
      split; [by intros [= ->]|by intros ->].
    + intros Hno. destruct (Hin a) as [(Ha & Hid & Hacc) _]; [left|].
      by destruct (Hno a).
Qed.

Lemma getVehicle_scoped_witness :
  getVehicle id
    [ {| veh_vehicle_uuid := "v1"; veh_account_uuid := "alice";
         veh_name := "car"; veh_data := tt |} ]
    (Value "bob") "v1"
  = Thrown (UnknownVehicle "v1").
Proof.
  assert (NoDup (veh_vehicle_uuid <$>
                   [ {| veh_vehicle_uuid := "v1"; veh_account_uuid := "alice";
                        veh_name := "car"; veh_data := tt |} ])) as Hu
    by (simpl; apply NoDup_singleton).
  apply (proj1 (proj2 (getVehicle_scoped id _ (Value "bob") "v1"
                         (λ l, reflexivity l) Hu))).
  intros row Hrow Hid Hacc. simpl in Hacc.
  apply list_elem_of_singleton in Hrow. subst row. discriminate Hacc.
Defined.

(** ** Resolving a position to a known location *)

Lemma Qltb_lt (a b : Q) : Qltb a b = true ↔ (a < b)%Q.
Proof.
  unfold Qltb. rewrite Bool.negb_true_iff, <- Bool.not_true_iff_false.
  rewrite Qle_bool_iff. split; [apply Qnot_le_lt|apply Qlt_not_le].
Qed.

Section nearest.

Context (geoDistance : Q → Q → Q → Q → Q) (MAX_VALUE : Q).
Context (latitude longitude : Z).

Abbreviation dist := (location_distance geoDistance latitude longitude).
Abbreviation fenced := (within_fence geoDistance latitude longitude).
Abbreviation step := (nearer geoDistance latitude longitude).
Abbreviation nearest_so_far :=
  (nearest_so_far geoDistance MAX_VALUE latitude longitude).

Lemma nearer_keeps seen best loc :
  (inject_Z (radius loc) <= MAX_VALUE)%Q →
  nearest_so_far seen best → nearest_so_far (seen ++ [loc]) (step best loc).
Proof.
  intros Hmax Hinv. unfold nearer.
  assert (¬ fenced loc → nearest_so_far (seen ++ [loc]) best) as Hskip.
  { intros Hout. unfold nearest_so_far in *.
    destruct best.1 as [b|].
    - destruct Hinv as (Hb & Hf & Hd & Hmin). split_and!; try done.
      + apply elem_of_app. by left.
      + intros l [Hl| ->%list_elem_of_singleton]%elem_of_app; [auto|done].
    - destruct Hinv as [Hd Hnone]. split; [done|].
      intros l [Hl| ->%list_elem_of_singleton]%elem_of_app; [auto|done]. }
  destruct (loc_location_uuid loc) as [uuid|] eqn:Huuid.
  2:{ apply Hskip. intros [Hid _]. done. }
  cbn zeta.
  destruct (Qltb (dist loc) (inject_Z (radius loc))) eqn:Hr; simpl.
  2:{ apply Hskip. intros [_ Hlt%Qltb_lt]. congruence. }
  apply Qltb_lt in Hr.
  assert (fenced loc) as Hloc by (split; [congruence|done]).
  destruct (Qltb (dist loc) best.2) eqn:Hb.
  - apply Qltb_lt in Hb. unfold nearest_so_far in *. simpl.
    split_and!; try done.
    + apply elem_of_app. right. left.
    + intros l [Hl| ->%list_elem_of_singleton]%elem_of_app Hfl;
        [|apply Qle_refl].
      destruct best.1 as [b|].
      * destruct Hinv as (_ & _ & Hd & Hmin). rewrite Hd in Hb.
        apply Qlt_le_weak. eapply Qlt_le_trans; [exact Hb|by apply Hmin].
      * destruct Hinv as [_ Hnone]. by destruct (Hnone l).
  - assert (¬ (dist loc < best.2)%Q) as Hge
      by (rewrite <- Qltb_lt; congruence).
    apply Qnot_lt_le in Hge. unfold nearest_so_far in *.
    destruct best.1 as [b|].
    + destruct Hinv as (Hin & Hf & Hd & Hmin). split_and!; try done.
      * apply elem_of_app. by left.
      * intros l [Hl| ->%list_elem_of_singleton]%elem_of_app Hfl; [auto|].
        by rewrite <- Hd.
    + destruct Hinv as [Hd _]. rewrite Hd in Hge.
      destruct (Qlt_not_le _ _ Hr). by eapply Qle_trans.
Qed.

Lemma foldl_nearer locations :
  ∀ seen best,
    Forall (λ loc, inject_Z (radius loc) <= MAX_VALUE)%Q locations →
    nearest_so_far seen best →
    nearest_so_far (seen ++ locations) (foldl step best locations).
Proof.
  induction locations as [|loc locations IH]; intros seen best Hmax Hinv.
  - by rewrite app_nil_r.
  - apply Forall_cons in Hmax as [Hloc Hmax]. simpl.
    rewrite cons_middle, app_assoc.
    apply IH; [done|]. by apply nearer_keeps.
Qed.

End nearest.

(** X12: [lookupKnownLocation] answers null exactly when the position lies
    within the geofence of none of the account's locations, and otherwise
    answers a location of the account whose geofence holds the position
    and that is at least as near as every other such location.  (Every
    radius is at most [Number.MAX_VALUE]; the sort only reorders.) *)
Theorem lookupKnownLocation_nearest
    (geoDistance : Q → Q → Q → Q → Q) (MAX_VALUE : Q)
    (order_by : list DBLocation → list DBLocation)
    (table : list DBLocation) (account : string) (latitude longitude : Z)
    (Hperm : ∀ l, order_by l ≡ₚ l)
    (Hmax : ∀ loc, loc ∈ table → (inject_Z (radius loc) <= MAX_VALUE)%Q) :
  let found :=
    lookupKnownLocation geoDistance MAX_VALUE order_by table account
                        latitude longitude in
  let candidate loc :=
    loc ∈ table ∧ loc_account_uuid loc = account
    ∧ within_fence geoDistance latitude longitude loc in
  (found = None ↔ ∀ loc, ¬ candidate loc)
  ∧ ∀ best,
      found = Some best →
      candidate best
      ∧ ∀ loc, candidate loc →
               (location_distance geoDistance latitude longitude best
                <= location_distance geoDistance latitude longitude loc)%Q.
Proof.
  intros found candidate.
  set (locations :=
         order_by (filter (λ loc, loc_account_uuid loc = account) table)).
  assert (∀ loc, loc ∈ locations ↔
                 loc ∈ table ∧ loc_account_uuid loc = account) as Hin.
  { intros loc. unfold locations.
    rewrite Hperm, list_elem_of_filter. tauto. }
  pose proof (foldl_nearer geoDistance MAX_VALUE latitude longitude
                locations [] (None, MAX_VALUE)) as Hinv.
  simpl app in Hinv.
  assert (nearest_so_far geoDistance MAX_VALUE latitude longitude locations
            (foldl (nearer geoDistance latitude longitude)
                   (None, MAX_VALUE) locations)) as H.
  { apply Hinv.
    - apply Forall_forall. intros loc [Hloc _]%Hin. by apply Hmax.
    - split; [done|]. by intros loc ?%elem_of_nil. }
  clear Hinv. unfold nearest_so_far in H.
  fold locations in found.
  change found
    with (foldl (nearer geoDistance latitude longitude)
                (None, MAX_VALUE) locations).1 in *.
  destruct (foldl _ _ locations).1 as [b|].
  - destruct H as (Hb & Hf & _ & Hmin). apply Hin in Hb as [Hb Hacc].
    split.
    + split; [done|]. intros Hnone. by destruct (Hnone b).
    + intros best [= <-]. split; [done|].
      intros loc (Hl & Hla & Hlf). apply Hmin; [by apply Hin|done].
  - destruct H as [_ Hnone]. split; [|done].
    split; [|done]. intros _ loc (Hl & Hla & Hlf).
    apply (Hnone loc); [by apply Hin|done].
Qed.

Lemma lookupKnownLocation_nearest_witness :
  (∀ loc, loc ∈ two_fences → (inject_Z (radius loc) <= 1000000000)%Q)
  ∧ ∀ best,
      lookupKnownLocation grid_distance 1000000000 id two_fences "alice"
                          3000100 0 = Some best →
      (best ∈ two_fences ∧ loc_account_uuid best = "alice"
       ∧ within_fence grid_distance 3000100 0 best)
      ∧ ∀ loc,
          loc ∈ two_fences ∧ loc_account_uuid loc = "alice"
          ∧ within_fence grid_distance 3000100 0 loc →
          (location_distance grid_distance 3000100 0 best
           <= location_distance grid_distance 3000100 0 loc)%Q.
Proof.
  assert (∀ loc, loc ∈ two_fences →
                 (inject_Z (radius loc) <= 1000000000)%Q) as Hmax.
  { intros loc Hloc. unfold two_fences in Hloc.
    rewrite !elem_of_cons, elem_of_nil in Hloc.
    destruct Hloc as [->|[->|[]]]; vm_compute; discriminate. }
  split; [exact Hmax|].
  exact (proj2 (lookupKnownLocation_nearest grid_distance 1000000000 id
                  two_fences "alice" 3000100 0 (λ l, reflexivity l) Hmax)).
Defined.

(** ** The sweep of orphan services *)

Section sweep.

Implicit Types (marks : gmap string bool) (table os : list DBServiceProvider).

Lemma sweep_step_marks marks table o u :
  marks !! u = Some true → (sweep_step (marks, table) o).1 !! u = Some true.
Proof.
  intros Hu. unfold sweep_step. simpl. case_decide; [done|]. simpl.
  destruct (decide (sp_service_uuid o = u)) as [->|Hne].
  - apply lookup_insert_eq.
  - by rewrite lookup_insert_ne.
Qed.

Lemma sweep_step_table marks table o r :
  r ∈ (sweep_step (marks, table) o).2 → r ∈ table.
Proof.
  unfold sweep_step. simpl. case_decide; [|done]. simpl.
  by intros [_ ?]%list_elem_of_filter.
Qed.

Lemma sweep_marks_grow os : ∀ marks table u,
  marks !! u = Some true →
  (foldl sweep_step (marks, table) os).1 !! u = Some true.
Proof.
  induction os as [|o os IH]; intros marks table u Hu; [done|]. simpl.
  destruct (sweep_step (marks, table) o) as [m t] eqn:E.
  apply IH. change m with (m, t).1. rewrite <- E.
  by apply sweep_step_marks.
Qed.

Lemma sweep_marks_orphans os : ∀ marks table o,
  o ∈ os →
  (foldl sweep_step (marks, table) os).1 !! sp_service_uuid o = Some true.
Proof.
  induction os as [|o' os IH]; intros marks table o Ho;
    [by apply elem_of_nil in Ho|].
  simpl. destruct (sweep_step (marks, table) o') as [m t] eqn:E.
  apply elem_of_cons in Ho as [->|Ho]; [|by apply IH].
  apply sweep_marks_grow. change m with (m, t).1. rewrite <- E.
  unfold sweep_step. simpl. case_decide; [done|]. simpl.
  apply lookup_insert_eq.
Qed.

Lemma sweep_table_sub os : ∀ marks table r,
  r ∈ (foldl sweep_step (marks, table) os).2 → r ∈ table.
Proof.
  induction os as [|o os IH]; intros marks table r Hr; [done|].
  simpl in Hr. destruct (sweep_step (marks, table) o) as [m t] eqn:E.
  apply IH in Hr. apply (sweep_step_table marks table o).
  by rewrite E.
Qed.

Lemma sweep_table_keep os : ∀ marks table r,
  r ∈ table →
  (∀ o, o ∈ os → sp_service_uuid o ≠ sp_service_uuid r) →
  r ∈ (foldl sweep_step (marks, table) os).2.
Proof.
  induction os as [|o os IH]; intros marks table r Hr Hne; [done|].
  simpl. destruct (sweep_step (marks, table) o) as [m t] eqn:E.
  apply IH; [|intros o' Ho'; apply Hne; by right].
  change t with (m, t).2. rewrite <- E. unfold sweep_step. simpl.
  case_decide; [|done]. simpl. apply list_elem_of_filter.
  split; [|done]. intros Heq. by apply (Hne o); [left|].
Qed.

Lemma sweep_table_delete os : ∀ marks table o r,
  o ∈ os → marks !! sp_service_uuid o = Some true →
  r ∈ (foldl sweep_step (marks, table) os).2 →
  sp_service_uuid r ≠ sp_service_uuid o.
Proof.
  induction os as [|o' os IH]; intros marks table o r Ho Hm Hr;
    [by apply elem_of_nil in Ho|].
  simpl in Hr. destruct (sweep_step (marks, table) o') as [m t] eqn:E.
  apply elem_of_cons in Ho as [->|Ho].
  - apply sweep_table_sub in Hr.
    unfold sweep_step in E. simpl in E. rewrite decide_True in E by done.
    injection E as <- <-. by apply list_elem_of_filter in Hr as [? _].
  - apply (IH m t o r Ho); [|done].
    change m with (m, t).1. rewrite <- E. by apply sweep_step_marks.
Qed.

Lemma sweep_grace os : ∀ marks table r,
  NoDup (sp_service_uuid <$> os) →
  marks !! sp_service_uuid r ≠ Some true →
  r ∈ table →
  r ∈ (foldl sweep_step (marks, table) os).2.
Proof.
  induction os as [|o os IH]; intros marks table r Hnd Hm Hr; [done|].
  rewrite fmap_cons, NoDup_cons in Hnd. destruct Hnd as [Ho Hnd].
  simpl. unfold sweep_step at 2. simpl.
  destruct (decide (sp_service_uuid o = sp_service_uuid r)) as [Heq|Hne].
  - rewrite decide_False by (by rewrite Heq).
    apply sweep_table_keep; [done|].
    intros o' Ho' Heq'. apply Ho. rewrite Heq, <- Heq'.
    by apply list_elem_of_fmap_2.
  - case_decide.
    + apply IH; [done..|]. by apply list_elem_of_filter.
    + apply IH; [done| |done]. by rewrite lookup_insert_ne.
Qed.

Lemma NoDup_fmap_filtered {A B} (f : A → B) (P : A → Prop)
    `{∀ x, Decision (P x)} (l : list A) :
  NoDup (f <$> l) → NoDup (f <$> filter P l).
Proof.
  induction l as [|x l IH]; [done|].
  rewrite fmap_cons, NoDup_cons. intros [Hx Hl].
  rewrite filter_cons. case_decide; [|by apply IH].
  rewrite fmap_cons, NoDup_cons. split; [|by apply IH].
  intros (y & Hy & [_ Hin]%list_elem_of_filter)%list_elem_of_fmap.
  apply Hx. rewrite Hy. by apply list_elem_of_fmap_2.
Qed.

End sweep.

(** X13: a run of the maintenance callback changes neither the vehicles
    nor the locations, adds no service, and removes no service that a
    vehicle or a location refers to. *)
Theorem maintenance_keeps_used (now : Z) (st : WorkerState)
    (db : ServiceTables) :
  let db' := (maintenance_tick now st db).2 in
  vehicle_service_uuid db' = vehicle_service_uuid db
  ∧ location_service_uuid db' = location_service_uuid db
  ∧ (∀ r, r ∈ service_provider db' → r ∈ service_provider db)
  ∧ ∀ r, r ∈ service_provider db → ¬ is_orphan db r →
         r ∈ service_provider db'.
Proof.
  unfold maintenance_tick. case_decide; simpl; [|done].
  split_and!; try done.
  - intros r. apply sweep_table_sub.
  - intros r Hr Hused. apply sweep_table_keep; [done|].
    intros o [Ho _]%list_elem_of_filter Heq. apply Hused.
    unfold is_orphan in *. by rewrite <- Heq.
Qed.

(** X14: with unique service ids, a service that the worker has not yet
    seen as an orphan survives the run, orphan or not; when the run is
    due and the service is an orphan, the run remembers it. *)
Theorem maintenance_grace (now : Z) (st : WorkerState) (db : ServiceTables)
    (r : DBServiceProvider)
    (Hunique : NoDup (sp_service_uuid <$> service_provider db))
    (Hrow : r ∈ service_provider db)
    (Hnew : orphanServices st !! sp_service_uuid r ≠ Some true) :
  r ∈ service_provider (maintenance_tick now st db).2
  ∧ (nextCleanup st < now → is_orphan db r →
     orphanServices (maintenance_tick now st db).1 !! sp_service_uuid r
     = Some true).
Proof.
  unfold maintenance_tick. case_decide as Hdue; simpl; [|by split].
  split.
  - apply sweep_grace; [|done..]. by apply NoDup_fmap_filtered.
  - intros _ Horphan. apply sweep_marks_orphans.
    by apply list_elem_of_filter.
Qed.

Lemma maintenance_grace_witness :
  {| sp_service_uuid := "s2"; sp_provider_name := "tibber" |}
    ∈ service_provider (maintenance_tick 60000 worker_start db_one_orphan).2.
Proof.
  refine (proj1 (maintenance_grace 60000 worker_start db_one_orphan
                   {| sp_service_uuid := "s2"; sp_provider_name := "tibber" |}
                   _ _ _)).
  - simpl. repeat constructor; rewrite ?elem_of_cons, ?elem_of_nil;
      intros H; repeat (destruct H as [H|H]; [discriminate H|]); exact H.
  - simpl. right. left.
  - simpl. rewrite lookup_empty. discriminate.
Defined.

(** X15: an orphan service is gone after the second due run: when a run
    is due at [now1], a later run at [now2] is more than an hour after it
    and the service has neither vehicle nor location, no row with its id
    is left after the second run. *)
Theorem maintenance_second_run (now1 now2 : Z) (st : WorkerState)
    (db : ServiceTables) (r : DBServiceProvider)
    (Hdue1 : nextCleanup st < now1)
    (Hdue2 : now1 + 3600000 < now2)
    (Hrow : r ∈ service_provider db)
    (Horphan : is_orphan db r) :
  let first := maintenance_tick now1 st db in
  let second := maintenance_tick now2 first.1 first.2 in
  ∀ r', r' ∈ service_provider second.2 →
        sp_service_uuid r' ≠ sp_service_uuid r.
Proof.
  intros first second r' Hr' Heq.
  assert (nextCleanup first.1 = now1 + 3600000
          ∧ orphanServices first.1 !! sp_service_uuid r = Some true
          ∧ vehicle_service_uuid first.2 = vehicle_service_uuid db
          ∧ location_service_uuid first.2 = location_service_uuid db)
    as (Hnext & Hmark & Hveh & Hloc).
  { unfold first, maintenance_tick. rewrite decide_True by done. simpl.
    split_and!; try done.
    apply sweep_marks_orphans. by apply list_elem_of_filter. }
  unfold second, maintenance_tick in Hr'.
  rewrite decide_True in Hr' by lia. simpl in Hr'.
  assert (r' ∈ service_provider first.2) as Hin
    by (by apply sweep_table_sub in Hr').
  assert (is_orphan first.2 r') as Ho'.
  { unfold is_orphan in *. by rewrite Hveh, Hloc, Heq. }
  eapply (sweep_table_delete _ _ _ r' r'); [|..|exact Hr'|done].
  - by apply list_elem_of_filter.
  - by rewrite Heq.
Qed.

Lemma maintenance_second_run_witness :
  is_orphan db_one_orphan
    {| sp_service_uuid := "s2"; sp_provider_name := "tibber" |}
  ∧ ∀ r',
      r' ∈ service_provider
             (maintenance_tick 3700000
                (maintenance_tick 60000 worker_start db_one_orphan).1
                (maintenance_tick 60000 worker_start db_one_orphan).2).2 →
      sp_service_uuid r' ≠ "s2".
Proof.
  assert (is_orphan db_one_orphan
            {| sp_service_uuid := "s2"; sp_provider_name := "tibber" |})
    as Horphan.
  { split; simpl; rewrite ?elem_of_cons, ?elem_of_nil; intros H;
      repeat (destruct H as [H|H]; [discriminate H|]); exact H. }
  split; [exact Horphan|].
  refine (maintenance_second_run 60000 3700000 worker_start db_one_orphan
            {| sp_service_uuid := "s2"; sp_provider_name := "tibber" |}
            _ _ _ Horphan).
  - reflexivity.
  - reflexivity.
  - simpl. right. left.
Defined.

(** X16: after a due run at [now], every run up to one hour later does
    nothing: it leaves the tables and the worker's state as that run left
    them. *)
Theorem maintenance_once_an_hour (now later : Z) (st : WorkerState)
    (db : ServiceTables)
    (Hdue : nextCleanup st < now) (Hsoon : later ≤ now + 3600000) :
  let first := maintenance_tick now st db in
  maintenance_tick later first.1 first.2 = first.
Proof.
  intros first.
  assert (nextCleanup first.1 = now + 3600000) as Hnext.
  { unfold first, maintenance_tick. by rewrite decide_True. }
  unfold maintenance_tick at 1. rewrite decide_False by lia.
  by destruct first.
Qed.

Lemma maintenance_once_an_hour_witness :
  maintenance_tick 3660000
    (maintenance_tick 60000 worker_start db_one_orphan).1
    (maintenance_tick 60000 worker_start db_one_orphan).2
  = maintenance_tick 60000 worker_start db_one_orphan.
Proof.
  apply (maintenance_once_an_hour 60000 3660000 worker_start db_one_orphan).
  - reflexivity.
  - discriminate.
Defined.

(** * The Tibber agent's schedule *)

Section whole_hour.

Lemma Qtrunc_nonneg (a b : Z) :
  0 ≤ a → 0 < b → Qtrunc (inject_Z a / inject_Z b) = a / b.
Proof.
  intros Ha Hb. unfold Qtrunc.
  assert (0 <= inject_Z a / inject_Z b)%Q as Hq.
  { apply Qle_shift_div_l; [unfold Qlt; simpl; lia|].
    rewrite Qmult_0_l. unfold Qle. simpl. lia. }
  apply Qle_bool_iff in Hq. rewrite Hq. symmetry. apply Zdiv_Qdiv.
Qed.

Lemma next_whole_hour_spec (now : Z) :
  0 ≤ now →
  next_whole_hour now = (now / 1000 / 3600 + 1) * 3600 - now / 1000.
Proof.
  intros Hnow. unfold next_whole_hour. rewrite Qtrunc_nonneg by lia.
  set (ts := now / 1000).
  assert (0 ≤ ts) as Hts by (apply Z.div_pos; lia).
  assert (inject_Z ts / inject_Z 3600 + 1
          == inject_Z (ts + 3600) / inject_Z 3600)%Q as Heq.
  { rewrite inject_Z_plus. field. }
  assert (Qtrunc (inject_Z ts / inject_Z 3600 + 1)
          = Qtrunc (inject_Z (ts + 3600) / inject_Z 3600)) as ->.
  { unfold Qtrunc. by rewrite !Heq. }
  rewrite Qtrunc_nonneg by lia.
  replace (ts + 3600) with (ts + 1 * 3600) by lia.
  by rewrite Z.div_add by lia.
Qed.

End whole_hour.

Example access_token_message :
  string_contains "No valid access token"
                  "Error: No valid access token in request" = true
  ∧ string_contains "No valid access token" "Too many requests" = false.
Proof. by split. Qed.

(** X17: when prices were fetched and sent, [work] asks to be run again at
    the next whole hour: for a time [now] of at least 0 milliseconds the
    interval it returns is between 1 and 3600 seconds, and the second
    [now / 1000] plus the interval is a multiple of 3600. *)
Theorem work_next_whole_hour (now : Z) (job : TibberAgentSubject)
    (res : TibberResponse)
    (Hnow : 0 ≤ now)
    (Htoken : invalidToken (providerData job) = false)
    (Haccess : no_valid_access_token res = false)
    (Hprices : today res ++ tomorrow res ≠ []) :
  ∃ interval,
    (work now job res).2 = Resolved interval
    ∧ 1 ≤ interval ≤ 3600
    ∧ (now / 1000 + interval) mod 3600 = 0.
Proof.
  unfold work. rewrite Htoken, Haccess.
  destruct (currency_update job res) as [calls job'].
  destruct (today res ++ tomorrow res) as [|p ps]; [done|]. simpl.
  exists (next_whole_hour now). split; [done|].
  rewrite next_whole_hour_spec by done.
  set (ts := now / 1000).
  assert (0 ≤ ts) as Hts by (apply Z.div_pos; lia).
  pose proof (Z.div_mod ts 3600 ltac:(lia)) as Hdm.
  pose proof (Z.mod_pos_bound ts 3600 ltac:(lia)) as Hmod.
  split; [lia|].
  replace (ts + ((ts / 3600 + 1) * 3600 - ts)) with ((ts / 3600 + 1) * 3600)
    by lia.
  apply Z_mod_mult.
Qed.

Lemma work_next_whole_hour_witness :
  ∃ interval,
    (work 1577836805000 tibber_job tibber_answer).2 = Resolved interval
    ∧ 1 ≤ interval ≤ 3600
    ∧ (1577836805000 / 1000 + interval) mod 3600 = 0.
Proof.
  apply (work_next_whole_hour 1577836805000 tibber_job tibber_answer).
  - discriminate.
  - reflexivity.
  - reflexivity.
  - discriminate.
Defined.

(** X18: [work] sends prices at most once, as its last call, and never an
    empty list: the one [updatePrice] carries, for the job's subject, one
    entry per price point of today followed by tomorrow, in that order.
    With a token flagged invalid it makes no call at all, with an answer
    that reports no valid access token it only flags the location, and in
    both cases it returns 60; with no price point at all the assertion
    fails and no price is sent. *)
Theorem work_price_updates (now : Z) (job : TibberAgentSubject)
    (res : TibberResponse) :
  let calls := (work now job res).1.1 in
  let result := (work now job res).2 in
  let points := today res ++ tomorrow res in
  (∀ id prices,
      UpdatePrice id prices ∈ calls →
      id = subjectID job
      ∧ prices = (λ p, (startsAt p, total p)) <$> points
      ∧ length prices = (length (today res) + length (tomorrow res))%nat
      ∧ prices ≠ []
      ∧ ∃ before, calls = before ++ [UpdatePrice id prices]
                  ∧ ∀ id' prices', ¬ (UpdatePrice id' prices' ∈ before))
  ∧ (invalidToken (providerData job) = true →
     calls = [] ∧ result = Resolved 60)
  ∧ (invalidToken (providerData job) = false →
     no_valid_access_token res = true →
     calls = [UpdateLocationInvalidToken (subjectID job)]
     ∧ result = Resolved 60)
  ∧ (result = Rejected AssertionError ↔
     invalidToken (providerData job) = false
     ∧ no_valid_access_token res = false
     ∧ points = []).
Proof.
  intros calls result points. unfold calls, result, work.
  assert (∀ id' prices',
            ¬ (UpdatePrice id' prices' ∈ (currency_update job res).1))
    as Hcur.
  { intros id' prices'. unfold currency_update.
    destruct (current_currency res) as [c|]; [|by intros ?%elem_of_nil].
    case_match; simpl; [|by intros ?%elem_of_nil].
    by intros [=]%list_elem_of_singleton. }
  destruct (invalidToken (providerData job)).
  { simpl. split_and!; try done.
    - by intros id prices ?%elem_of_nil.
    - split; [done|]. by intros [? _]. }
  destruct (no_valid_access_token res).
  { simpl. split_and!; try done.
    - by intros id prices [=]%list_elem_of_singleton.
    - split; [done|]. by intros (_ & ? & _). }
  destruct (currency_update job res) as [before job'] eqn:Ecur.
  simpl in Hcur. fold points.
  destruct points as [|p ps] eqn:Epoints; simpl.
  { split_and!; try done. intros id prices Hin. by destruct (Hcur id prices). }
  split_and!; try done.
  - intros id prices [Hin|[= -> ->]%list_elem_of_singleton]%elem_of_app;
      [by destruct (Hcur id prices)|].
    split_and!; try done.
    + change (length ((λ p0, (startsAt p0, total p0)) <$> (p :: ps))
              = (length (today res) + length (tomorrow res))%nat).
      rewrite length_fmap, <- Epoints. apply length_app.
    + by exists before.
  - split; [done|]. by intros (_ & _ & ?).
Qed.

(** * Writes seen from other readers *)

Section write_effects.

Context (db : DB) (vehicle : string) (cid lv dur : Z)
        (temp used added : option Z).

Let x := make_input vehicle cid lv dur temp used added.
Let db' := after_setChargeCurve db vehicle cid lv dur temp used added.

(** Every row of the table has, after the write, a row with its key. *)
Lemma written_table_keys b :
  b ∈ charge_curve db →
  ∃ b', b' ∈ charge_curve db' ∧ curve_key b' = curve_key b.
Proof.
  intros Hb. unfold db'.
  rewrite (proj2 (after_setChargeCurve_tables db vehicle cid lv dur
                    temp used added)).
  fold x.
  assert (curve_key b ∈ curve_key <$> (insert_on_conflict x (charge_curve db)).1)
    as Hk.
  { rewrite insert_on_conflict_keys.
    case_decide; [|apply elem_of_app; left]; by apply list_elem_of_fmap_2. }
  apply list_elem_of_fmap in Hk as (b' & Hk & Hb'). by exists b'.
Qed.

Lemma written_samples_levels v loc b :
  b ∈ samples_at db v loc →
  ∃ b', b' ∈ samples_at db' v loc ∧ level b' = level b.
Proof.
  intros [Hb (a & Ha & Hid & Hv & Hl)]%elem_of_samples_at.
  destruct (written_table_keys b Hb) as (b' & Hb' & Hk).
  injection Hk as _ Hlevel Hcid.
  exists b'. split; [|done]. apply elem_of_samples_at. split; [done|].
  exists a. split_and!; try done.
  - unfold db'.
    by rewrite (proj1 (after_setChargeCurve_tables db vehicle cid lv dur
                         temp used added)).
  - congruence.
Qed.

End write_effects.

(** X19: a write touches one curve only: when every session with the
    written [charge_id] belongs to vehicle [v] at location [loc], the
    curve of every other pair of vehicle and location is as before the
    write. *)
Theorem write_leaves_other_curves (db : DB) (vehicle : string)
    (cid lv dur : Z) (temp used added : option Z) (v loc v' loc' : string)
    (Hsession : ∀ a, a ∈ charge db → charge_id a = cid →
                     vehicle_uuid a = v ∧ location_uuid a = loc)
    (Hother : (v', loc') ≠ (v, loc)) :
  getChargeCurve
    (after_setChargeCurve db vehicle cid lv dur temp used added) v' loc'
  = getChargeCurve db v' loc'.
Proof.
  pose proof (after_setChargeCurve_tables db vehicle cid lv dur
                temp used added) as [Hcharge Hcurve].
  apply getChargeCurve_ext; [|by rewrite Hcharge].
  rewrite !samples_at_sessions, Hcharge.
  apply Forall_bind_ext, Forall_forall.
  intros a [[Hv Hl] Ha]%list_elem_of_filter.
  apply session_samples_other. intros Hid.
  destruct (Hsession a Ha Hid) as [Hv' Hl']. apply Hother. congruence.
Qed.

Lemma write_leaves_other_curves_witness :
  getChargeCurve
    (after_setChargeCurve db_two_locations "V" 1 63 90 None None None) "V" "M"
  = getChargeCurve db_two_locations "V" "M".
Proof.
  apply (write_leaves_other_curves db_two_locations "V" 1 63 90
           None None None "V" "L" "V" "M").
  - intros a Ha Hid. simpl in Ha. rewrite !elem_of_cons, elem_of_nil in Ha.
    destruct Ha as [->|[->|[]]]; [by split|discriminate Hid].
  - discriminate.
Defined.

(** X20: a write never lowers a calibration: a calibration that was a
    level before the write is, after it, a level at least as high, for
    every vehicle and session. *)
Theorem calibration_never_lowered (db : DB) (vehicle : string)
    (cid lv dur : Z) (temp used added : option Z) (v : string) (c m : Z)
    (Hbefore : chargeCalibration db v c = Resolved (Some m)) :
  ∃ m',
    chargeCalibration
      (after_setChargeCurve db vehicle cid lv dur temp used added) v c
    = Resolved (Some m')
    ∧ m ≤ m'.
Proof.
  pose proof (after_setChargeCurve_tables db vehicle cid lv dur
                temp used added) as [Hcharge _].
  unfold chargeCalibration, session_location in *. rewrite Hcharge.
  destruct (location_uuid <$> filter _ (charge db)) as [|loc [|? ?]];
    try done.
  injection Hbefore as Hmax. apply sql_max_Some in Hmax as [Hm _].
  apply list_elem_of_fmap in Hm as (b & -> & Hb).
  destruct (written_samples_levels db vehicle cid lv dur temp used added
              v loc b Hb) as (b' & Hb' & Hlevel).
  destruct (sql_max _) as [m'|] eqn:Hm'.
  - exists m'. split; [done|]. apply sql_max_Some in Hm' as [_ Hle].
    rewrite <- Hlevel. apply Hle. by apply list_elem_of_fmap_2.
  - apply sql_max_None, fmap_nil_inv in Hm'. rewrite Hm' in Hb'.
    by apply elem_of_nil in Hb'.
Qed.

Lemma calibration_never_lowered_witness :
  ∃ m',
    chargeCalibration
      (after_setChargeCurve db_two_locations "V" 1 20 90 None None None)
      "V" 1 = Resolved (Some m')
    ∧ 40 ≤ m'.
Proof.
  exact (calibration_never_lowered db_two_locations "V" 1 20 90
           None None None "V" 1 40 eq_refl).
Defined.

(** ** What of a sample the curve reads *)

Section curve_columns.

Lemma same_reading_fmap {B} (f : DBChargeCurve → B) l k :
  (∀ b b', same_reading b b' → f b = f b') →
  Forall2 same_reading l k → f <$> l = f <$> k.
Proof.
  intros Hf. induction 1 as [|b b' l k Hb _ IH]; [done|].
  by rewrite !fmap_cons, IH, (Hf b b').
Qed.

Lemma same_reading_upsert x x' t :
  curve_key x = curve_key x' → duration x = duration x' →
  Forall2 same_reading (insert_on_conflict x t).1 (insert_on_conflict x' t).1.
Proof.
  intros Hk Hd.
  assert (same_reading x x') as Hxx.
  { injection Hk as _ Hl Hc. by split_and!. }
  induction t as [|r t IH]; simpl; [constructor; [done|constructor]|].
  rewrite <- Hk.
  destruct (decide (curve_key r = curve_key x)) as [Hr|Hr]; simpl.
  - rewrite !do_update_excluded by congruence.
    constructor; [done|]. apply Forall2_same_length_lookup. split; [done|].
    intros i b b' Hb Hb'. assert (b = b') as <- by congruence.
    by split_and!.
  - destruct (insert_on_conflict x t) as [t1 r1].
    destruct (insert_on_conflict x' t) as [t2 r2]. simpl in *.
    constructor; [by split_and!|done].
Qed.

Lemma same_reading_samples db1 db2 v loc :
  charge db1 = charge db2 →
  Forall2 same_reading (charge_curve db1) (charge_curve db2) →
  Forall2 same_reading (samples_at db1 v loc) (samples_at db2 v loc).
Proof.
  intros Hc Ht. rewrite !samples_at_sessions, Hc.
  apply Forall2_bind, Forall2_same_length_lookup. split; [done|].
  intros i a a' Ha Ha'. assert (a = a') as <- by congruence.
  apply Forall2_filter; [|done].
  intros b b' (Hid & _ & _). by rewrite Hid.
Qed.

Lemma same_reading_curve db1 db2 v loc :
  charge db1 = charge db2 →
  Forall2 same_reading (charge_curve db1) (charge_curve db2) →
  getChargeCurve db1 v loc = getChargeCurve db2 v loc.
Proof.
  intros Hc Ht.
  pose proof (same_reading_samples db1 db2 v loc Hc Ht) as Hs.
  unfold getChargeCurve, select_level_median, select_avg_duration,
    select_avg_estimate, short_sessions.
  rewrite Hc.
  rewrite (same_reading_fmap level _ _ (λ b b' H, proj1 (proj2 H)) Hs).
  rewrite (same_reading_fmap (λ b, inject_Z (duration b)) _ _
             (λ b b' H, f_equal inject_Z (proj2 (proj2 H))) Hs).
  f_equal. apply list_fmap_ext. intros _ lv _.
  unfold level_median, durations_at. do 2 f_equal.
  apply same_reading_fmap; [by intros b b' (_ & _ & ?)|].
  apply Forall2_filter; [|done]. intros b b' (_ & Hl & _). by rewrite Hl.
Qed.

End curve_columns.

(** X21: the temperature and the two energies stored with a sample take
    no part in the curve: two writes that differ only in them leave the
    same curve for every vehicle and location. *)
Theorem curve_ignores_optional_fields (db : DB) (vehicle : string)
    (cid lv dur : Z) (temp used added temp' used' added' : option Z)
    (v loc : string) :
  getChargeCurve
    (after_setChargeCurve db vehicle cid lv dur temp used added) v loc
  = getChargeCurve
      (after_setChargeCurve db vehicle cid lv dur temp' used' added') v loc.
Proof.
  pose proof (after_setChargeCurve_tables db vehicle cid lv dur
                temp used added) as [Hc1 Ht1].
  pose proof (after_setChargeCurve_tables db vehicle cid lv dur
                temp' used' added') as [Hc2 Ht2].
  apply same_reading_curve; [congruence|].
  rewrite Ht1, Ht2. by apply same_reading_upsert.
Qed.
